(** * The animator of the 3D animation tool (js/animator.js)

    A shallow embedding of class [Animator]: the prompt resolver
    ([parsePrompt]), the playback operations ([setModel], [setAnimation],
    [setSpeed], [play], [pause], [stop], [update]) and the thirty-two
    procedural animations, followed by the properties of the
    specification that concern them.

    Modelling decisions.
    - Strings are sequences of code units below 256 (the Latin-1 range),
      held in [string]; [toLowerCase] and [trim] are the ECMAScript
      functions restricted to that range.
    - An object literal is the list of its own properties in insertion
      order; a property read [o[k]] that misses the own properties falls
      through to [Object.prototype], as in the language.
    - Numbers are kept abstract in the class [JSNumber]: every arithmetic
      operator and [Math] function of the source is an operation of the
      class, and no law is assumed of them.  A theorem stated for every
      instance therefore holds for IEEE doubles; closed examples use the
      instance over the real numbers.
    - The vectors of three.js ([Vector3], [Euler]) are mutable objects:
      they live in a store indexed by locations, an [Object3D] holds the
      locations of its position, rotation and scale, and [clone] allocates.
    - [Math.random] reads an infinite sequence of numbers, one per call. *)

From Stdlib Require Import QArith Reals Lra.
From Stdlib Require Import String Ascii List Bool Arith Lia.
Import ListNotations.

Set Implicit Arguments.

(** ** Numbers *)

Class JSNumber (num : Type) : Type := {
  lit : Q -> num;                 (* a numeric literal *)
  add : num -> num -> num;        (* a + b *)
  sub : num -> num -> num;        (* a - b *)
  mul : num -> num -> num;        (* a * b *)
  rem : num -> num -> num;        (* a % b *)
  gt : num -> num -> bool;        (* a > b *)
  Math_PI : num;
  Math_sin : num -> num;
  Math_cos : num -> num;
  Math_abs : num -> num;
  Math_max : num -> num -> num
}.

Arguments lit {num _} q%_Q.

Declare Scope num_scope.
Delimit Scope num_scope with num.
Infix "+" := add : num_scope.
Infix "-" := sub : num_scope.
Infix "*" := mul : num_scope.

(** The instance over the real numbers.  [a % b] truncates the quotient
    towards zero, so the result has the sign of the dividend. *)

Definition Rtrunc (q : R) : Z :=
  if Rle_dec 0 q then Int_part q else (- Int_part (- q))%Z.

Definition Rrem (a b : R) : R := (a - b * IZR (Rtrunc (a / b)))%R.

Definition Rgtb (a b : R) : bool := if Rgt_dec a b then true else false.

#[export] Instance RNumber : JSNumber R := {|
  lit := Q2R;
  add := Rplus;
  sub := Rminus;
  mul := Rmult;
  rem := Rrem;
  gt := Rgtb;
  Math_PI := PI;
  Math_sin := sin;
  Math_cos := cos;
  Math_abs := Rabs;
  Math_max := Rmax
|}.

(** ** Strings *)

Module JSString.

Definition between (lo hi n : nat) : bool := ((lo <=? n) && (n <=? hi))%nat.

(** [String.prototype.toLowerCase] on one code unit: A-Z, and the
    Latin-1 capitals U+00C0-U+00D6 and U+00D8-U+00DE, move up by 32. *)
Definition lowerChar (c : ascii) : ascii :=
  let n := nat_of_ascii c in
  if between 65 90 n || between 192 214 n || between 216 222 n
  then ascii_of_nat (n + 32)
  else c.

Fixpoint toLowerCase (s : string) : string :=
  match s with
  | EmptyString => EmptyString
  | String c s' => String (lowerChar c) (toLowerCase s')
  end.

(** White space and line terminators below 256: TAB, LF, VT, FF, CR,
    SP and NBSP. *)
Definition isSpace (c : ascii) : bool :=
  let n := nat_of_ascii c in
  between 9 13 n || (n =? 32)%nat || (n =? 160)%nat.

Fixpoint trimStart (s : string) : string :=
  match s with
  | EmptyString => EmptyString
  | String c s' => if isSpace c then trimStart s' else s
  end.

Fixpoint trimEnd (s : string) : string :=
  match s with
  | EmptyString => EmptyString
  | String c s' =>
      match trimEnd s' with
      | EmptyString => if isSpace c then EmptyString else String c EmptyString
      | r => String c r
      end
  end.

Definition trim (s : string) : string := trimEnd (trimStart s).

(** [s.includes(pat)]: [pat] occurs in [s] at some position. *)
Fixpoint includes (s pat : string) : bool :=
  String.prefix pat s ||
  match s with
  | EmptyString => false
  | String _ s' => includes s' pat
  end.

End JSString.

(** ** Values and objects *)

(** The animations, one constructor per method [animateX]. *)
Inductive AnimationId : Type :=
  | Rotate | Spin | Roll | Flip
  | Bounce | Float | Jump | Hop | Levitate
  | Pulse | Breathe | Heartbeat | Grow | Shrink
  | Shake | Wave | Swing | Sway | Wobble
  | Walk | Run | Dance | March | Strut
  | Spiral | Orbit | Fly | Zigzag | Pendulum | Tornado | Earthquake | Crazy.

(** The values that the animator stores and looks up. *)
Inductive value : Type :=
  | Null
  | Undefined
  | Str (s : string)
  | Method (a : AnimationId)   (* this.animateX.bind(this) *)
  | Builtin (name : string)    (* a function of Object.prototype *)
  | ObjectPrototype.           (* Object.prototype itself *)

Definition truthy (v : value) : bool :=
  match v with
  | Null | Undefined => false
  | Str s => negb (String.eqb s "")
  | Method _ | Builtin _ | ObjectPrototype => true
  end.

(** An object literal: its own properties, in insertion order. *)
Definition object : Type := list (string * value).

Fixpoint own (o : object) (k : string) : option value :=
  match o with
  | [] => None
  | (k', v) :: o' => if String.eqb k k' then Some v else own o' k
  end.

(** The function-valued properties of [Object.prototype]. *)
Definition prototypeFunctions : list string :=
  [ "constructor"; "hasOwnProperty"; "isPrototypeOf"; "propertyIsEnumerable";
    "toLocaleString"; "toString"; "valueOf";
    "__defineGetter__"; "__defineSetter__";
    "__lookupGetter__"; "__lookupSetter__" ]%string.

Definition mem (k : string) (l : list string) : bool :=
  existsb (String.eqb k) l.

(** A read of [Object.prototype]; the accessor [__proto__] yields the
    prototype of the receiver, which is [Object.prototype] for a literal. *)
Definition objectPrototype (k : string) : value :=
  if String.eqb k "__proto__" then ObjectPrototype
  else if mem k prototypeFunctions then Builtin k
  else Undefined.

(** The keys that a read of an object literal finds on its prototype. *)
Definition inherited (k : string) : bool :=
  String.eqb k "__proto__" || mem k prototypeFunctions.

(** [o[k]].  A key that is not a string is first converted to one
    ("null", "undefined", "[object Object]" or the source text of a
    function); none of these names a property of the objects below, nor
    of [Object.prototype]. *)
Definition get (o : object) (k : value) : value :=
  match k with
  | Str k =>
      match own o k with
      | Some v => v
      | None => objectPrototype k
      end
  | _ => Undefined
  end.

(** [Object.entries] and [Object.keys]: no key below is an array index,
    so the order is insertion order. *)
Definition entries (o : object) : list (string * value) := o.
Definition keys (o : object) : list string := map fst o.

(** ** The registry and the alias table *)

Definition animation_table : list (string * AnimationId) :=
  [ ("rotate", Rotate); ("spin", Spin); ("roll", Roll); ("flip", Flip);
    ("bounce", Bounce); ("float", Float); ("jump", Jump); ("hop", Hop);
    ("levitate", Levitate);
    ("pulse", Pulse); ("breathe", Breathe); ("heartbeat", Heartbeat);
    ("grow", Grow); ("shrink", Shrink);
    ("shake", Shake); ("wave", Wave); ("swing", Swing); ("sway", Sway);
    ("wobble", Wobble);
    ("walk", Walk); ("run", Run); ("dance", Dance); ("march", March);
    ("strut", Strut);
    ("spiral", Spiral); ("orbit", Orbit); ("fly", Fly); ("zigzag", Zigzag);
    ("pendulum", Pendulum); ("tornado", Tornado);
    ("earthquake", Earthquake); ("crazy", Crazy) ]%string.

Definition alias_table : list (string * string) :=
  [ ("rotating", "rotate"); ("turn", "rotate"); ("turning", "rotate");
    ("spinning", "spin"); ("twirl", "spin");
    ("bouncing", "bounce"); ("boing", "bounce");
    ("floating", "float"); ("hover", "float"); ("hovering", "float");
    ("pulsing", "pulse"); ("throb", "pulse");
    ("waving", "wave");
    ("shaking", "shake"); ("vibrate", "shake"); ("vibrating", "shake");
    ("swinging", "swing");
    ("rolling", "roll");
    ("flipping", "flip");
    ("wobbling", "wobble");
    ("jumping", "jump"); ("leap", "jump");
    ("walking", "walk"); ("stepping", "walk");
    ("running", "run"); ("jog", "run"); ("jogging", "run"); ("sprint", "run");
    ("dancing", "dance"); ("boogie", "dance"); ("groove", "dance");
    ("breathing", "breathe");
    ("flying", "fly"); ("soar", "fly"); ("soaring", "fly"); ("glide", "fly");
    ("spiraling", "spiral"); ("corkscrew", "spiral");
    ("orbiting", "orbit"); ("circle", "orbit"); ("circling", "orbit");
    ("hopping", "hop"); ("skip", "hop");
    ("marching", "march"); ("parade", "march");
    ("strutting", "strut");
    ("swaying", "sway"); ("rock", "sway");
    ("levitating", "levitate"); ("rise", "levitate");
    ("zig-zag", "zigzag"); ("snake", "zigzag");
    ("wild", "crazy"); ("random", "crazy"); ("chaos", "crazy") ]%string.

(** [this.animations] and [this.aliases]. *)
Definition animations : object :=
  map (fun '(k, a) => (k, Method a)) animation_table.

Definition aliases : object :=
  map (fun '(k, target) => (k, Str target)) alias_table.

(** ** The resolver *)

Definition parsePrompt (prompt : string) : value :=
  let lowerPrompt := JSString.trim (JSString.toLowerCase prompt) in
  if truthy (get animations (Str lowerPrompt)) then Str lowerPrompt
  else if truthy (get aliases (Str lowerPrompt)) then get aliases (Str lowerPrompt)
  else
    match find (fun '(alias, _) => JSString.includes lowerPrompt alias) (entries aliases) with
    | Some (_, animation) => animation
    | None =>
        match find (fun animation => JSString.includes lowerPrompt animation) (keys animations) with
        | Some animation => Str animation
        | None => Null
        end
    end.

(** The resolver as the specification words it: the five rules, tried
    in order on the lowercased and trimmed input. *)
Definition canonical_ids : list string := map fst animation_table.

Definition resolve_spec (s : string) : option string :=
  let s' := JSString.trim (JSString.toLowerCase s) in
  if mem s' canonical_ids then Some s'
  else
    match find (fun '(phrase, _) => String.eqb s' phrase) alias_table with
    | Some (_, target) => Some target
    | None =>
        match find (fun '(phrase, _) => JSString.includes s' phrase) alias_table with
        | Some (_, target) => Some target
        | None => find (fun id => JSString.includes s' id) canonical_ids
        end
    end.

Definition of_option (r : option string) : value :=
  match r with
  | Some id => Str id
  | None => Null
  end.

(** ** The store *)

Definition loc : Type := nat.

Inductive axis : Type := X | Y | Z.

(** A three.js object: the locations of its three vectors.  The literal
    that [saveInitialState] builds has the same three properties. *)
Record Object3D : Type := {
  position : loc;
  rotation : loc;
  scale : loc
}.

Inductive completion : Type :=
  | Normal
  | TypeError.

Section Animator.

Context {num : Type} {N : JSNumber num}.

Local Open Scope num_scope.

Record Vector3 : Type := { x : num; y : num; z : num }.

Definition coord (v : Vector3) (a : axis) : num :=
  match a with
  | X => x v
  | Y => y v
  | Z => z v
  end.

Definition setCoord (v : Vector3) (a : axis) (n : num) : Vector3 :=
  match a with
  | X => {| x := n; y := y v; z := z v |}
  | Y => {| x := x v; y := n; z := z v |}
  | Z => {| x := x v; y := y v; z := n |}
  end.

(** The world outside the animator: the vectors, the next free location,
    and the values that [Math.random] returns, of which [draws] are used. *)
Record World : Type := {
  heap : loc -> Vector3;
  next : loc;
  entropy : nat -> num;
  draws : nat
}.

Definition upd (h : loc -> Vector3) (l : loc) (v : Vector3) : loc -> Vector3 :=
  fun l' => if Nat.eqb l' l then v else h l'.

Definition setHeap (w : World) (h : loc -> Vector3) : World :=
  {| heap := h; next := next w; entropy := entropy w; draws := draws w |}.

(** [v.x], [v.y], [v.z] for the vector at [l]. *)
Definition load (w : World) (l : loc) (a : axis) : num := coord (heap w l) a.

(** [v.x = n], and likewise for [y] and [z]. *)
Definition store (w : World) (l : loc) (a : axis) (n : num) : World :=
  setHeap w (upd (heap w) l (setCoord (heap w l) a n)).

(** [v.set(a, b, c)] and [v.setScalar(s)]. *)
Definition set (w : World) (l : loc) (a b c : num) : World :=
  setHeap w (upd (heap w) l {| x := a; y := b; z := c |}).

Definition setScalar (w : World) (l : loc) (s : num) : World := set w l s s s.

(** [dst.copy(src)]. *)
Definition copy (w : World) (dst src : loc) : World :=
  setHeap w (upd (heap w) dst (heap w src)).

(** [src.clone()]: a new vector with the coordinates of [src]. *)
Definition clone (w : World) (src : loc) : loc * World :=
  (next w,
   {| heap := upd (heap w) (next w) (heap w src);
      next := S (next w);
      entropy := entropy w;
      draws := draws w |}).

(** [Math.random()]. *)
Definition Math_random (w : World) : num * World :=
  (entropy w (draws w),
   {| heap := heap w; next := next w; entropy := entropy w; draws := S (draws w) |}).

(** ** The animator *)

Record Animator : Type := {
  model : option Object3D;
  currentAnimation : value;
  speed : num;
  isPlaying : bool;
  time : num;
  initialState : option Object3D
}.

Definition new_Animator : Animator :=
  {| model := None;
     currentAnimation := Null;
     speed := lit 1.0;
     isPlaying := true;
     time := lit 0;
     initialState := None |}.

Definition setModelField (this : Animator) (m : option Object3D) : Animator :=
  {| model := m; currentAnimation := currentAnimation this; speed := speed this;
     isPlaying := isPlaying this; time := time this;
     initialState := initialState this |}.

Definition setCurrentAnimation (this : Animator) (v : value) : Animator :=
  {| model := model this; currentAnimation := v; speed := speed this;
     isPlaying := isPlaying this; time := time this;
     initialState := initialState this |}.

Definition setSpeedField (this : Animator) (s : num) : Animator :=
  {| model := model this; currentAnimation := currentAnimation this; speed := s;
     isPlaying := isPlaying this; time := time this;
     initialState := initialState this |}.

Definition setIsPlaying (this : Animator) (b : bool) : Animator :=
  {| model := model this; currentAnimation := currentAnimation this;
     speed := speed this; isPlaying := b; time := time this;
     initialState := initialState this |}.

Definition setTime (this : Animator) (t : num) : Animator :=
  {| model := model this; currentAnimation := currentAnimation this;
     speed := speed this; isPlaying := isPlaying this; time := t;
     initialState := initialState this |}.

Definition setInitialState (this : Animator) (i : option Object3D) : Animator :=
  {| model := model this; currentAnimation := currentAnimation this;
     speed := speed this; isPlaying := isPlaying this; time := time this;
     initialState := i |}.

Definition saveInitialState (this : Animator) (w : World) : Animator * World :=
  match model this with
  | None => (this, w)
  | Some m =>
      let (p, w) := clone w (position m) in
      let (r, w) := clone w (rotation m) in
      let (s, w) := clone w (scale m) in
      (setInitialState this (Some {| position := p; rotation := r; scale := s |}), w)
  end.

Definition setModel (this : Animator) (m : option Object3D) (w : World)
  : Animator * World :=
  saveInitialState (setModelField this m) w.

Definition resetToInitialState (this : Animator) (w : World) : Animator * World :=
  match model this, initialState this with
  | Some m, Some init =>
      let w := copy w (position m) (position init) in
      let w := copy w (rotation m) (rotation init) in
      let w := copy w (scale m) (scale init) in
      (setTime this (lit 0), w)
  | _, _ => (this, w)
  end.

Definition setAnimation (this : Animator) (animationName : string)
  : bool * Animator :=
  let parsed := parsePrompt animationName in
  if truthy parsed && truthy (get animations parsed)
  then (true, setTime (setCurrentAnimation this parsed) (lit 0))
  else (false, this).

Definition setSpeed (this : Animator) (s : num) : Animator := setSpeedField this s.
Definition play (this : Animator) : Animator := setIsPlaying this true.
Definition pause (this : Animator) : Animator := setIsPlaying this false.

Definition stop (this : Animator) (w : World) : Animator * World :=
  resetToInitialState (setCurrentAnimation (setIsPlaying this false) Null) w.

(** ** The animations

    Each function is the body of the method of the same name, past its
    guard [if (!this.model) return;]: [m] is [this.model] and [init] is
    [this.initialState].  Statements run in source order on the store. *)

(* ============ BASIC ROTATIONS ============ *)

Definition animateRotate (m init : Object3D) (t : num) (w : World) : World :=
  store w (rotation m) Y (load w (rotation init) Y + t).

Definition animateSpin (m init : Object3D) (t : num) (w : World) : World :=
  store w (rotation m) Y (load w (rotation init) Y + t * lit 4).

Definition animateRoll (m init : Object3D) (t : num) (w : World) : World :=
  store w (rotation m) X (load w (rotation init) X + t * lit 2).

Definition animateFlip (m init : Object3D) (t : num) (w : World) : World :=
  let w := store w (rotation m) X (load w (rotation init) X + t * lit 2) in
  let bounce := Math_abs (Math_sin (t * lit 2)) * lit 0.3 in
  store w (position m) Y (load w (position init) Y + bounce).

(* ============ VERTICAL MOTIONS ============ *)

Definition animateBounce (m init : Object3D) (t : num) (w : World) : World :=
  let bounce := Math_abs (Math_sin (t * lit 4)) * lit 0.5 in
  store w (position m) Y (load w (position init) Y + bounce).

Definition animateFloat (m init : Object3D) (t : num) (w : World) : World :=
  let float := Math_sin (t * lit 1.5) * lit 0.2 in
  store w (position m) Y (load w (position init) Y + float + lit 0.1).

Definition animateJump (m init : Object3D) (t : num) (w : World) : World :=
  let cycle := rem t (Math_PI * lit 2) in
  let height := Math_max (lit 0) (Math_sin (cycle * lit 2)) * lit 1.0 in
  let w := store w (position m) Y (load w (position init) Y + height) in
  (* Squash and stretch *)
  let squash := lit 1 - Math_abs (Math_sin (cycle * lit 2)) * lit 0.15 in
  let stretch := lit 1 + Math_abs (Math_sin (cycle * lit 2)) * lit 0.15 in
  let base := load w (scale init) X in
  set w (scale m) (base * squash) (base * stretch) (base * squash).

Definition animateHop (m init : Object3D) (t : num) (w : World) : World :=
  let hop := Math_abs (Math_sin (t * lit 5)) * lit 0.3 in
  let w := store w (position m) Y (load w (position init) Y + hop) in
  store w (position m) X (load w (position init) X + Math_sin (t * lit 2.5) * lit 0.2).

Definition animateLevitate (m init : Object3D) (t : num) (w : World) : World :=
  let rise := Math_sin (t * lit 0.5) * lit 0.3 + lit 0.5 in
  let wobble := Math_sin (t * lit 3) * lit 0.02 in
  let w := store w (position m) Y (load w (position init) Y + rise) in
  store w (rotation m) Y (load w (rotation init) Y + wobble).

(* ============ SCALE EFFECTS ============ *)

Definition animatePulse (m init : Object3D) (t : num) (w : World) : World :=
  let scale_ := lit 1 + Math_sin (t * lit 4) * lit 0.15 in
  let base := load w (scale init) X in
  setScalar w (scale m) (base * scale_).

Definition animateBreathe (m init : Object3D) (t : num) (w : World) : World :=
  let breathe := lit 1 + Math_sin (t * lit 1.5) * lit 0.08 in
  let base := load w (scale init) X in
  let w := setScalar w (scale m) (base * breathe) in
  store w (position m) Y (load w (position init) Y + Math_sin (t * lit 1.5) * lit 0.05).

Definition animateHeartbeat (m init : Object3D) (t : num) (w : World) : World :=
  let beat := Math_sin (t * lit 8) in
  let scale_ :=
    lit 1 + (if gt beat (lit 0.7) then lit 0.15
             else if gt beat (lit 0.3) then lit 0.08 else lit 0) in
  let base := load w (scale init) X in
  setScalar w (scale m) (base * scale_).

Definition animateGrow (m init : Object3D) (t : num) (w : World) : World :=
  let grow := lit 1 + (Math_sin (t * lit 0.5) + lit 1) * lit 0.25 in
  let base := load w (scale init) X in
  setScalar w (scale m) (base * grow).

Definition animateShrink (m init : Object3D) (t : num) (w : World) : World :=
  let shrink := lit 1 - (Math_sin (t * lit 0.5) + lit 1) * lit 0.2 in
  let base := load w (scale init) X in
  setScalar w (scale m) (base * Math_max (lit 0.3) shrink).

(* ============ HORIZONTAL MOTIONS ============ *)

Definition animateShake (m init : Object3D) (t : num) (w : World) : World :=
  let shake := Math_sin (t * lit 25) * lit 0.05 in
  store w (position m) X (load w (position init) X + shake).

Definition animateWave (m init : Object3D) (t : num) (w : World) : World :=
  let w := store w (rotation m) Z (load w (rotation init) Z + Math_sin (t * lit 2) * lit 0.4) in
  store w (position m) Y (load w (position init) Y + Math_sin (t * lit 2) * lit 0.1).

Definition animateSwing (m init : Object3D) (t : num) (w : World) : World :=
  store w (rotation m) Z (load w (rotation init) Z + Math_sin (t * lit 2) * lit 0.6).

Definition animateSway (m init : Object3D) (t : num) (w : World) : World :=
  let w := store w (rotation m) Z (load w (rotation init) Z + Math_sin (t * lit 1.5) * lit 0.2) in
  store w (position m) X (load w (position init) X + Math_sin (t * lit 1.5) * lit 0.1).

Definition animateWobble (m init : Object3D) (t : num) (w : World) : World :=
  let w := store w (rotation m) X (load w (rotation init) X + Math_sin (t * lit 3) * lit 0.25) in
  store w (rotation m) Z (load w (rotation init) Z + Math_cos (t * lit 3) * lit 0.25).

(* ============ CHARACTER ANIMATIONS ============ *)

Definition animateWalk (m init : Object3D) (t : num) (w : World) : World :=
  let step := Math_abs (Math_sin (t * lit 4)) * lit 0.1 in
  let sway := Math_sin (t * lit 2) * lit 0.1 in
  let bob := Math_sin (t * lit 4) * lit 0.05 in
  let w := store w (position m) Y (load w (position init) Y + step) in
  let w := store w (rotation m) Z (load w (rotation init) Z + sway) in
  store w (position m) X (load w (position init) X + bob).

Definition animateRun (m init : Object3D) (t : num) (w : World) : World :=
  let step := Math_abs (Math_sin (t * lit 8)) * lit 0.15 in
  let lean := Math_sin (t * lit 4) * lit 0.15 in
  let bounce := Math_abs (Math_sin (t * lit 8)) * lit 0.1 in
  let w := store w (position m) Y (load w (position init) Y + step + bounce) in
  let w := store w (rotation m) Z (load w (rotation init) Z + lean) in
  store w (rotation m) X (load w (rotation init) X + lit 0.1). (* Lean forward *)

Definition animateDance (m init : Object3D) (t : num) (w : World) : World :=
  let w := store w (rotation m) Y (load w (rotation init) Y + Math_sin (t * lit 4) * lit 0.6) in
  let w := store w (position m) Y (load w (position init) Y + Math_abs (Math_sin (t * lit 6)) * lit 0.4) in
  let w := store w (rotation m) Z (load w (rotation init) Z + Math_sin (t * lit 3) * lit 0.25) in
  let scale_ := lit 1 + Math_sin (t * lit 6) * lit 0.08 in
  let base := load w (scale init) X in
  setScalar w (scale m) (base * scale_).

Definition animateMarch (m init : Object3D) (t : num) (w : World) : World :=
  let step := Math_abs (Math_sin (t * lit 3)) * lit 0.2 in
  let swing := Math_sin (t * lit 3) * lit 0.1 in
  let w := store w (position m) Y (load w (position init) Y + step) in
  store w (rotation m) Z (load w (rotation init) Z + swing).

Definition animateStrut (m init : Object3D) (t : num) (w : World) : World :=
  let step := Math_abs (Math_sin (t * lit 2.5)) * lit 0.12 in
  let sway := Math_sin (t * lit 2.5) * lit 0.2 in
  let hip := Math_sin (t * lit 2.5) * lit 0.15 in
  let w := store w (position m) Y (load w (position init) Y + step) in
  let w := store w (rotation m) Z (load w (rotation init) Z + sway) in
  store w (position m) X (load w (position init) X + hip).

(* ============ SPECIAL EFFECTS ============ *)

Definition animateSpiral (m init : Object3D) (t : num) (w : World) : World :=
  let radius := lit 0.3 in
  let w := store w (position m) X (load w (position init) X + Math_cos (t * lit 2) * radius) in
  let w := store w (position m) Z (load w (position init) Z + Math_sin (t * lit 2) * radius) in
  let w := store w (position m) Y (load w (position init) Y + Math_sin (t * lit 0.5) * lit 0.3) in
  store w (rotation m) Y (load w (rotation init) Y + t * lit 2).

Definition animateOrbit (m init : Object3D) (t : num) (w : World) : World :=
  let radius := lit 0.5 in
  let w := store w (position m) X (load w (position init) X + Math_cos (t * lit 1.5) * radius) in
  let w := store w (position m) Z (load w (position init) Z + Math_sin (t * lit 1.5) * radius) in
  store w (rotation m) Y (load w (rotation init) Y + t * lit 1.5).

Definition animateFly (m init : Object3D) (t : num) (w : World) : World :=
  let glide := Math_sin (t * lit 0.8) * lit 0.5 + lit 0.5 in
  let tilt := Math_sin (t * lit 1.5) * lit 0.15 in
  let sway := Math_sin (t * lit 2) * lit 0.2 in
  let w := store w (position m) Y (load w (position init) Y + glide) in
  let w := store w (rotation m) Z (load w (rotation init) Z + tilt) in
  store w (position m) X (load w (position init) X + sway).

Definition animateZigzag (m init : Object3D) (t : num) (w : World) : World :=
  let zigzag := Math_sin (t * lit 4) * lit 0.4 in
  let forward := Math_sin (t * lit 2) * lit 0.2 in
  let w := store w (position m) X (load w (position init) X + zigzag) in
  store w (position m) Z (load w (position init) Z + forward).

Definition animatePendulum (m init : Object3D) (t : num) (w : World) : World :=
  let swing := Math_sin (t * lit 2) * lit 0.8 in
  let rise := Math_abs (Math_cos (t * lit 2)) * lit 0.2 in
  let w := store w (rotation m) Z (load w (rotation init) Z + swing) in
  store w (position m) Y (load w (position init) Y + rise).

Definition animateTornado (m init : Object3D) (t : num) (w : World) : World :=
  let radius := Math_sin (t * lit 0.5) * lit 0.3 + lit 0.2 in
  let w := store w (position m) X (load w (position init) X + Math_cos (t * lit 5) * radius) in
  let w := store w (position m) Z (load w (position init) Z + Math_sin (t * lit 5) * radius) in
  let w := store w (position m) Y (load w (position init) Y + Math_sin (t * lit 2) * lit 0.3) in
  store w (rotation m) Y (load w (rotation init) Y + t * lit 8).

Definition animateEarthquake (m init : Object3D) (t : num) (w : World) : World :=
  let (r1, w) := Math_random w in
  let shakeX := (r1 - lit 0.5) * lit 0.1 in
  let (r2, w) := Math_random w in
  let shakeZ := (r2 - lit 0.5) * lit 0.1 in
  let (r3, w) := Math_random w in
  let shakeY := (r3 - lit 0.5) * lit 0.05 in
  let w := store w (position m) X (load w (position init) X + shakeX) in
  let w := store w (position m) Z (load w (position init) Z + shakeZ) in
  store w (position m) Y (load w (position init) Y + shakeY).

Definition animateCrazy (m init : Object3D) (t : num) (w : World) : World :=
  let w := store w (rotation m) X (load w (rotation init) X + Math_sin (t * lit 7) * lit 0.5) in
  let w := store w (rotation m) Y (load w (rotation init) Y + t * lit 3) in
  let w := store w (rotation m) Z (load w (rotation init) Z + Math_cos (t * lit 5) * lit 0.4) in
  let w := store w (position m) Y (load w (position init) Y + Math_abs (Math_sin (t * lit 8)) * lit 0.4) in
  let w := store w (position m) X (load w (position init) X + Math_sin (t * lit 6) * lit 0.3) in
  let scale_ := lit 1 + Math_sin (t * lit 10) * lit 0.1 in
  let base := load w (scale init) X in
  setScalar w (scale m) (base * scale_).

Definition animation (a : AnimationId)
  : Object3D -> Object3D -> num -> World -> World :=
  match a with
  | Rotate => animateRotate | Spin => animateSpin
  | Roll => animateRoll | Flip => animateFlip
  | Bounce => animateBounce | Float => animateFloat
  | Jump => animateJump | Hop => animateHop | Levitate => animateLevitate
  | Pulse => animatePulse | Breathe => animateBreathe
  | Heartbeat => animateHeartbeat | Grow => animateGrow
  | Shrink => animateShrink
  | Shake => animateShake | Wave => animateWave | Swing => animateSwing
  | Sway => animateSway | Wobble => animateWobble
  | Walk => animateWalk | Run => animateRun | Dance => animateDance
  | March => animateMarch | Strut => animateStrut
  | Spiral => animateSpiral | Orbit => animateOrbit | Fly => animateFly
  | Zigzag => animateZigzag | Pendulum => animatePendulum
  | Tornado => animateTornado | Earthquake => animateEarthquake
  | Crazy => animateCrazy
  end.

(** ** Calls and the tick *)

(** A call [f(t)] of the bound method [a]: the guard, then the body.
    Every body reads [this.initialState] before it writes anything, so
    without a rest pose the call fails on that read; [animateEarthquake]
    has drawn its three random numbers by then. *)
Definition callMethod (a : AnimationId) (this : Animator) (t : num) (w : World)
  : completion * World :=
  match model this with
  | None => (Normal, w)
  | Some m =>
      match initialState this with
      | Some init => (Normal, animation a m init t w)
      | None =>
          (TypeError,
           match a with
           | Earthquake => snd (Math_random (snd (Math_random (snd (Math_random w)))))
           | _ => w
           end)
      end
  end.

(** The functions of [Object.prototype] that return when they are called
    with [this] undefined and a number: [Object(t)], [toString] and
    [isPrototypeOf]; the others fail converting [this] to an object. *)
Definition builtinReturns (name : string) : bool :=
  mem name [ "constructor"; "toString"; "isPrototypeOf" ]%string.

(** [f(t)] for the value [f] found in [this.animations]. *)
Definition call (f : value) (this : Animator) (t : num) (w : World)
  : completion * World :=
  match f with
  | Method a => callMethod a this t w
  | Builtin name => (if builtinReturns name then Normal else TypeError, w)
  | _ => (TypeError, w)
  end.

Definition present {A : Type} (o : option A) : bool :=
  match o with
  | Some _ => true
  | None => false
  end.

Definition update (this : Animator) (deltaTime : num) (w : World)
  : completion * Animator * World :=
  if negb (present (model this)) || negb (truthy (currentAnimation this))
     || negb (isPlaying this)
  then (Normal, this, w)
  else
    let this := setTime this (time this + deltaTime * speed this) in
    let animFn := get animations (currentAnimation this) in
    if truthy animFn
    then let (c, w) := call animFn this (time this) w in (c, this, w)
    else (Normal, this, w).

(** ** Transforms, well-formed states *)

Inductive part : Type := Position | Rotation | Scale.

Definition vec (o : Object3D) (p : part) : loc :=
  match p with
  | Position => position o
  | Rotation => rotation o
  | Scale => scale o
  end.

(** The coordinate [o.p.a] in the world [w]. *)
Definition read (w : World) (o : Object3D) (p : part) (a : axis) : num :=
  load w (vec o p) a.

Definition locs (o : Object3D) : list loc := [position o; rotation o; scale o].

(** An object of three distinct, allocated vectors. *)
Definition wellFormed (w : World) (o : Object3D) : Prop :=
  NoDup (locs o) /\ Forall (fun l => l < next w)%nat (locs o).

Definition separate (o1 o2 : Object3D) : Prop :=
  forall l, In l (locs o1) -> ~ In l (locs o2).

(** The states that the constructor and the methods produce: an attached
    model has a rest pose, held in vectors of its own. *)
Definition inv (this : Animator) (w : World) : Prop :=
  (forall m, model this = Some m ->
     wellFormed w m /\
     exists init, initialState this = Some init /\ separate m init) /\
  (forall init, initialState this = Some init -> wellFormed w init).

(** The coordinates that each animation assigns. *)
Definition writes (a : AnimationId) : list (part * axis) :=
  match a with
  | Rotate | Spin => [(Rotation, Y)]
  | Roll => [(Rotation, X)]
  | Flip => [(Rotation, X); (Position, Y)]
  | Bounce | Float => [(Position, Y)]
  | Jump => [(Position, Y); (Scale, X); (Scale, Y); (Scale, Z)]
  | Hop => [(Position, Y); (Position, X)]
  | Levitate => [(Position, Y); (Rotation, Y)]
  | Pulse | Heartbeat | Grow | Shrink => [(Scale, X); (Scale, Y); (Scale, Z)]
  | Breathe => [(Scale, X); (Scale, Y); (Scale, Z); (Position, Y)]
  | Shake => [(Position, X)]
  | Wave => [(Rotation, Z); (Position, Y)]
  | Swing => [(Rotation, Z)]
  | Sway => [(Rotation, Z); (Position, X)]
  | Wobble => [(Rotation, X); (Rotation, Z)]
  | Walk | Strut | Fly => [(Position, Y); (Rotation, Z); (Position, X)]
  | Run => [(Position, Y); (Rotation, Z); (Rotation, X)]
  | Dance =>
      [(Rotation, Y); (Position, Y); (Rotation, Z);
       (Scale, X); (Scale, Y); (Scale, Z)]
  | March => [(Position, Y); (Rotation, Z)]
  | Spiral | Tornado =>
      [(Position, X); (Position, Z); (Position, Y); (Rotation, Y)]
  | Orbit => [(Position, X); (Position, Z); (Rotation, Y)]
  | Zigzag => [(Position, X); (Position, Z)]
  | Pendulum => [(Rotation, Z); (Position, Y)]
  | Earthquake => [(Position, X); (Position, Z); (Position, Y)]
  | Crazy =>
      [(Rotation, X); (Rotation, Y); (Rotation, Z); (Position, Y);
       (Position, X); (Scale, X); (Scale, Y); (Scale, Z)]
  end.

Definition part_eqb (p q : part) : bool :=
  match p, q with
  | Position, Position | Rotation, Rotation | Scale, Scale => true
  | _, _ => false
  end.

Definition axis_eqb (a b : axis) : bool :=
  match a, b with
  | X, X | Y, Y | Z, Z => true
  | _, _ => false
  end.

Definition touches (a : AnimationId) (p : part) (ax : axis) : bool :=
  existsb (fun c => part_eqb (fst c) p && axis_eqb (snd c) ax) (writes a).

(** ** Runs *)

(** The ticks [update(dt)] for the [dt] of a list, in order; a tick that
    fails does not keep the host from calling the next one. *)
Fixpoint updates (this : Animator) (dts : list num) (w : World)
  : Animator * World :=
  match dts with
  | [] => (this, w)
  | dt :: dts' =>
      let '(_, this', w') := update this dt w in updates this' dts' w'
  end.

(** How each of these ticks ended, in order. *)
Fixpoint completions (this : Animator) (dts : list num) (w : World)
  : list completion :=
  match dts with
  | [] => []
  | dt :: dts' =>
      let '(c, this', w') := update this dt w in c :: completions this' dts' w'
  end.

(** The operations that run on a captured rest pose. *)
Inductive Op : Type :=
  | OpUpdate (deltaTime : num)
  | OpAnimate (a : AnimationId) (t : num)
  | OpPlay
  | OpPause
  | OpStop
  | OpSetSpeed (s : num)
  | OpSetAnimation (animationName : string).

Definition exec (op : Op) (this : Animator) (w : World) : Animator * World :=
  match op with
  | OpUpdate dt => let '(_, this', w') := update this dt w in (this', w')
  | OpAnimate a t => (this, snd (callMethod a this t w))
  | OpPlay => (play this, w)
  | OpPause => (pause this, w)
  | OpStop => stop this w
  | OpSetSpeed s => (setSpeed this s, w)
  | OpSetAnimation name => (snd (setAnimation this name), w)
  end.

Fixpoint run (ops : list Op) (this : Animator) (w : World) : Animator * World :=
  match ops with
  | [] => (this, w)
  | op :: ops' => let (this', w') := exec op this w in run ops' this' w'
  end.

(** Two worlds that hold the same vectors. *)
Definition sameHeap (w1 w2 : World) : Prop := forall l, heap w1 l = heap w2 l.

End Animator.

Arguments World num : clear implicits.
Arguments Animator num : clear implicits.
Arguments Vector3 num : clear implicits.
Arguments Op num : clear implicits.

(** ** The scene manager's [addModel] (js/scene.js) *)

Section SceneManager.

Context {num : Type} {N : JSNumber num}.

Local Open Scope num_scope.

(** The quotient [a / b]. *)
Variable divide : num -> num -> num.

(** [addModel(model)], as far as the transform of the model goes.  The
    bounding box that three.js measures is given by its [size] and its
    [center]; [center.multiplyScalar(factor)] works on that vector, which
    nothing else holds.  Around these statements the method takes the
    previous model out of the scene graph, turns shadows on, adds the
    model to the scene and moves the camera: none of that writes the
    position, the rotation or the scale of the model. *)
Definition addModel (m : Object3D) (size center : Vector3 num) (w : World num)
  : World num :=
  let maxDim := Math_max (Math_max (x size) (y size)) (z size) in
  let factor := if gt maxDim (lit 0) then divide (lit 2) maxDim else lit 1 in
  (* model.scale.setScalar(scale) *)
  let w := setScalar w (scale m) factor in
  (* model.position.sub(center.multiplyScalar(scale)) *)
  let w := set w (position m)
               (load w (position m) X - x center * factor)
               (load w (position m) Y - y center * factor)
               (load w (position m) Z - z center * factor) in
  (* model.position.y += (size.y * scale) / 2 *)
  store w (position m) Y
        (load w (position m) Y + divide (y size * factor) (lit 2)).

(** [onModelLoaded(model, name)] of the page, as far as the animator goes:
    [addModel], then [setModel] on the model it returns. *)
Definition onModelLoaded (this : Animator num) (m : Object3D)
    (size center : Vector3 num) (w : World num) : Animator num * World num :=
  setModel this (Some m) (addModel m size center w).

End SceneManager.

(** ** A concrete scene over the real numbers *)

Module Scene.

Local Open Scope R_scope.

(** A model whose vectors are the first three of the store. *)
Definition cube : Object3D :=
  {| position := 0%nat; rotation := 1%nat; scale := 2%nat |}.

(** Its position is (0, 1, 0), its rotation zero, its scale (sx, sy, sz). *)
Definition vectors (sx sy sz : R) (l : loc) : Vector3 R :=
  match l with
  | 0%nat => {| x := 0; y := 1; z := 0 |}
  | 2%nat => {| x := sx; y := sy; z := sz |}
  | _ => {| x := 0; y := 0; z := 0 |}
  end.

(** [Math.random] returns 0, 1/10, 2/10, ... *)
Definition world (sx sy sz : R) : World R :=
  {| heap := vectors sx sy sz; next := 3%nat; entropy := fun n => INR n / 10;
     draws := 0%nat |}.

(** A model of uniform scale, and one stretched along y and z. *)
Definition uniform : World R := world 1 1 1.
Definition stretched : World R := world 1 2 3.

(** The vectors that [setModel] allocates in these worlds. *)
Definition rest : Object3D :=
  {| position := 3%nat; rotation := 4%nat; scale := 5%nat |}.

(** A fresh animator with the cube attached. *)
Definition attached (w : World R) : Animator R * World R :=
  setModel new_Animator (Some cube) w.

Definition loaded (w : World R) : Animator R := fst (attached w).
Definition stage (w : World R) : World R := snd (attached w).

(** ... then asked to rotate. *)
Definition rotating (w : World R) : Animator R :=
  snd (setAnimation (loaded w) "rotate").

(** ... or asked to bounce, one second ago. *)
Definition bounced : Animator R * World R :=
  let '(_, this, w) :=
    update (snd (setAnimation (loaded uniform) "bounce")) 1 (stage uniform) in
  (this, w).

(** The cube with its rest pose captured, in a world where [Math.random]
    always returns 1/2. *)
Definition quiet : World R :=
  {| heap := fun l => vectors 1 1 1 (Nat.modulo l 3); next := 6%nat;
     entropy := fun _ => / 2; draws := 0%nat |}.

(** The session: load the cube, rotate for five seconds, remove the
    model. *)
Definition removed : Animator R * World R :=
  let '(_, this, w) := update (rotating uniform) 5 (stage uniform) in
  setModel this None w.

(** The cube after a tick of two seconds of [rotate]. *)
Definition rotated : Animator R * World R :=
  let '(_, this, w) := update (rotating uniform) 2 (stage uniform) in
  (this, w).

(** The stretched cube loaded through the page: its bounding box is
    measured as of size (1, 4, 3) around (0, 1, 0). *)
Definition shown : Animator R * World R :=
  onModelLoaded Rdiv new_Animator cube
    {| x := 1; y := 4; z := 3 |} {| x := 0; y := 1; z := 0 |} stretched.

End Scene.

(** ** The rest of the animator, and its callers in the page *)

(** [getAvailableAnimations()]. *)
Definition getAvailableAnimations : list string := keys animations.

Section Callers.

Context {num : Type} {N : JSNumber num}.

(** [getCurrentAnimation()]. *)
Definition getCurrentAnimation (this : Animator num) : value :=
  currentAnimation this.


(** What [applyAnimation] of the page tells the user. *)
Inductive Feedback : Type :=
  | Ignored              (* return, nothing shown *)
  | PleaseLoadModel      (* alert('Please load a 3D model first!') *)
  | ActiveShown          (* showActiveAnimation(prompt) *)
  | UnknownAnimation.    (* alert('Unknown animation: ...') *)

(** [applyAnimation] of [setupAnimationControls]: [promptInput] is the
    text of the input element, [None] when the element is missing. *)
Definition applyAnimation (modelLoaded : bool) (promptInput : option string)
    (animator : Animator num) : Feedback * Animator num :=
  match promptInput with
  | None => (Ignored, animator)
  | Some text =>
      let prompt := JSString.trim text in
      if negb (truthy (Str prompt)) then (Ignored, animator)
      else if negb modelLoaded then (PleaseLoadModel, animator)
      else
        let (found, animator') := setAnimation animator prompt in
        if found then (ActiveShown, animator') else (UnknownAnimation, animator')
  end.

End Callers.

(** The lights of [SceneManager]: [this.lights] as the list of the
    intensities of its lights. *)
Section Lights.

Context {num : Type} {N : JSNumber num}.

Local Open Scope num_scope.

(** [setupLights()]: ambient, main, fill, rim and point light. *)
Definition setupLights : list num :=
  [lit 0.5; lit 1.2; lit 0.4; lit 0.3; lit 0.5].

(** [lights.forEach((light, index) => ...)] from [index] on. *)
Fixpoint forEachLight (index : nat) (intensity : num) (lights : list num)
  : list num :=
  match lights with
  | [] => []
  | _ :: rest =>
      (if Nat.eqb index 0 then lit 0.5 * intensity
       else if Nat.eqb index 1 then lit 1.2 * intensity
       else lit 0.4 * intensity)
      :: forEachLight (S index) intensity rest
  end.

Definition setLightIntensity (lights : list num) (intensity : num) : list num :=
  forEachLight 0 intensity lights.

End Lights.

(** The format check of [App.loadFile]. *)
Module App.

(** [s.split(sep)] for a separator of one character. *)
Fixpoint split (sep : ascii) (s : string) : list string :=
  match s with
  | EmptyString => [EmptyString]
  | String c s' =>
      if Ascii.eqb c sep then EmptyString :: split sep s'
      else
        match split sep s' with
        | head :: tail => String c head :: tail
        | [] => [String c EmptyString]
        end
  end.

(** [parts.pop()]: the last element, [None] for undefined. *)
Fixpoint pop (parts : list string) : option string :=
  match parts with
  | [] => None
  | [part] => Some part
  | _ :: parts' => pop parts'
  end.

(** [parts.join(sep)], the inverse of [split]; the page does not call it. *)
Fixpoint join (sep : ascii) (parts : list string) : string :=
  match parts with
  | [] => EmptyString
  | [part] => part
  | part :: parts' => (part ++ String sep (join sep parts'))%string
  end.

Definition hasDot (s : string) : bool :=
  JSString.includes s ".".

Inductive Format : Type :=
  | Unsupported (ext : string)   (* alert('Unsupported format: ...'); return *)
  | UseGLTFLoader
  | UseOBJLoader
  | NoLoader                     (* neither branch taken: model stays null *)
  | NoExtension.                 (* undefined.toLowerCase() *)

(** [name.split('.').pop().toLowerCase()]. *)
Definition extension (name : string) : option string :=
  option_map JSString.toLowerCase (pop (split "." name)).

Definition format (name : string) : Format :=
  match extension name with
  | None => NoExtension
  | Some ext =>
      if negb (mem ext ["glb"; "gltf"; "obj"]%string) then Unsupported ext
      else if String.eqb ext "glb" || String.eqb ext "gltf" then UseGLTFLoader
      else if String.eqb ext "obj" then UseOBJLoader
      else NoLoader
  end.

End App.

(** * Properties *)

(** ** Strings *)

Example trim_examples :
  JSString.trim "  ROTATE  " = "ROTATE"%string
  /\ JSString.trim (String (ascii_of_nat 9) "a b " ++ String (ascii_of_nat 10) "")
     = "a b"%string
  /\ JSString.trim "   " = ""%string
  /\ JSString.toLowerCase "Zig-ZAG 1" = "zig-zag 1"%string.
Proof. vm_compute. repeat split; reflexivity. Qed.

Lemma prefix_append (p s : string) :
  String.prefix p s = true <-> exists b, s = (p ++ b)%string.
Proof.
  revert s. induction p as [|c p IH]; intros s.
  - split; [intros _; exists s; reflexivity | destruct s; reflexivity].
  - destruct s as [|d s]; cbn;
      [split; [discriminate | intros [b H]; discriminate H]|].
    destruct (Ascii.ascii_dec c d) as [<- | Hcd].
    + rewrite IH. split; intros [b H]; exists b.
      * now rewrite H.
      * now injection H.
    + split; [discriminate|]. intros [b H]. injection H as H1 _. congruence.
Qed.

(** [s.includes(pat)] holds exactly when [pat] occurs in [s]. *)
Lemma includes_occurs (s pat : string) :
  JSString.includes s pat = true <-> exists a b, s = (a ++ pat ++ b)%string.
Proof.
  induction s as [|c s IH]; cbn [JSString.includes]; rewrite orb_true_iff, prefix_append.
  - split.
    + intros [[b H] | H]; [|discriminate]. exists ""%string, b. exact H.
    + intros (a & b & H). left. destruct a as [|d a]; [|discriminate].
      exists b. exact H.
  - rewrite IH. split.
    + intros [[b H] | (a & b & H)].
      * exists ""%string, b. exact H.
      * exists (String c a), b. cbn. now rewrite H.
    + intros (a & b & H). destruct a as [|d a].
      * left. exists b. exact H.
      * right. injection H as _ H. exists a, b. exact H.
Qed.

Lemma lowerChar_idempotent (c : ascii) :
  JSString.lowerChar (JSString.lowerChar c) = JSString.lowerChar c.
Proof.
  destruct c as [[] [] [] [] [] [] [] []]; vm_compute; reflexivity.
Qed.

Lemma isSpace_lowerChar (c : ascii) :
  JSString.isSpace (JSString.lowerChar c) = JSString.isSpace c.
Proof.
  destruct c as [[] [] [] [] [] [] [] []]; vm_compute; reflexivity.
Qed.

Lemma toLowerCase_idempotent (s : string) :
  JSString.toLowerCase (JSString.toLowerCase s) = JSString.toLowerCase s.
Proof.
  induction s as [|c s IH]; cbn; [reflexivity|].
  now rewrite lowerChar_idempotent, IH.
Qed.

Lemma toLowerCase_trimStart (s : string) :
  JSString.toLowerCase (JSString.trimStart s)
  = JSString.trimStart (JSString.toLowerCase s).
Proof.
  induction s as [|c s IH]; cbn; [reflexivity|].
  rewrite isSpace_lowerChar. destruct (JSString.isSpace c); [exact IH | reflexivity].
Qed.

Lemma toLowerCase_trimEnd (s : string) :
  JSString.toLowerCase (JSString.trimEnd s)
  = JSString.trimEnd (JSString.toLowerCase s).
Proof.
  induction s as [|c s IH]; cbn; [reflexivity|].
  rewrite <- IH, isSpace_lowerChar.
  destruct (JSString.trimEnd s); cbn.
  - destruct (JSString.isSpace c); reflexivity.
  - reflexivity.
Qed.

(** The string that the lookups take is in lower case. *)
Lemma normal_lower (s : string) :
  JSString.toLowerCase (JSString.trim (JSString.toLowerCase s))
  = JSString.trim (JSString.toLowerCase s).
Proof.
  unfold JSString.trim.
  now rewrite toLowerCase_trimEnd, toLowerCase_trimStart, toLowerCase_idempotent.
Qed.

(** ** The resolver *)

Section Lookup.

Local Open Scope string_scope.

Variable A : Type.
Variable f : A -> value.

Lemma own_map (l : list (string * A)) (k : string) :
  own (map (fun '(k', a) => (k', f a)) l) k =
  match find (fun '(k', _) => String.eqb k k') l with
  | Some (_, a) => Some (f a)
  | None => None
  end.
Proof.
  induction l as [|[k' a] l IH]; simpl.
  - reflexivity.
  - destruct (String.eqb k k'); [reflexivity | exact IH].
Qed.

Lemma mem_keys (l : list (string * A)) (k : string) :
  mem k (map fst l) =
  match find (fun '(k', _) => String.eqb k k') l with
  | Some _ => true
  | None => false
  end.
Proof.
  unfold mem. induction l as [|[k' a] l IH]; simpl.
  - reflexivity.
  - destruct (String.eqb k k'); [reflexivity | exact IH].
Qed.

Lemma find_entries (l : list (string * A)) (p : string -> bool) :
  find (fun '(k, _) => p k) (map (fun '(k', a) => (k', f a)) l) =
  match find (fun '(k, _) => p k) l with
  | Some (k, a) => Some (k, f a)
  | None => None
  end.
Proof.
  induction l as [|[k' a] l IH]; simpl.
  - reflexivity.
  - destruct (p k'); [reflexivity | exact IH].
Qed.

Lemma find_some_in (l : list (string * A)) (p : string * A -> bool) (r : string * A) :
  find p l = Some r -> In r l.
Proof.
  intros H. apply find_some in H. tauto.
Qed.

End Lookup.

Lemma objectPrototype_truthy (k : string) :
  truthy (objectPrototype k) = inherited k.
Proof.
  unfold objectPrototype, inherited.
  destruct (String.eqb k "__proto__"); [reflexivity|].
  destruct (mem k prototypeFunctions); reflexivity.
Qed.

Lemma truthy_get_animations (k : string) :
  truthy (get animations (Str k)) = mem k canonical_ids || inherited k.
Proof.
  unfold get, animations, canonical_ids.
  rewrite own_map, mem_keys.
  destruct (find _ animation_table) as [[k' a]|]; simpl.
  - reflexivity.
  - apply objectPrototype_truthy.
Qed.

Lemma alias_targets_truthy :
  forallb (fun p => negb (String.eqb (snd p) "")) alias_table = true.
Proof. vm_compute. reflexivity. Qed.

Lemma get_aliases (k : string) :
  inherited k = false ->
  get aliases (Str k) =
  match find (fun '(phrase, _) => String.eqb k phrase) alias_table with
  | Some (_, target) => Str target
  | None => Undefined
  end
  /\ truthy (get aliases (Str k)) =
     match find (fun '(phrase, _) => String.eqb k phrase) alias_table with
     | Some _ => true
     | None => false
     end.
Proof.
  intros Hk. unfold get, aliases. rewrite own_map.
  destruct (find _ alias_table) as [[phrase target]|] eqn:E.
  - split; [reflexivity|]. simpl.
    apply find_some_in in E.
    pose proof alias_targets_truthy as H.
    rewrite forallb_forall in H. exact (H _ E).
  - unfold objectPrototype. unfold inherited in Hk.
    destruct (String.eqb k "__proto__"); [discriminate|].
    destruct (mem k prototypeFunctions); [discriminate|].
    split; reflexivity.
Qed.

(** Outside the keys inherited from [Object.prototype], [parsePrompt]
    is the resolver of the specification. *)
Theorem parsePrompt_resolve (s : string) :
  inherited (JSString.trim (JSString.toLowerCase s)) = false ->
  parsePrompt s = of_option (resolve_spec s).
Proof.
  intros Hk. unfold parsePrompt, resolve_spec.
  set (lp := JSString.trim (JSString.toLowerCase s)) in *.
  rewrite truthy_get_animations, Hk, orb_false_r.
  destruct (mem lp canonical_ids); [reflexivity|].
  destruct (get_aliases lp Hk) as [Hget Htruthy].
  rewrite Htruthy, Hget.
  destruct (find _ alias_table) as [[phrase target]|]; [reflexivity|].
  unfold entries, aliases.
  rewrite (find_entries Str alias_table (fun k => JSString.includes lp k)).
  destruct (find _ alias_table) as [[phrase target]|]; [reflexivity|].
  change (keys animations) with canonical_ids.
  destruct (find _ canonical_ids); reflexivity.
Qed.

(** Of the keys of [Object.prototype], a string in lower case can only
    be "constructor" or "__proto__". *)
Lemma inherited_lower (k : string) :
  JSString.toLowerCase k = k ->
  inherited k = true ->
  k = "constructor"%string \/ k = "__proto__"%string.
Proof.
  intros Hlow H. unfold inherited, mem, prototypeFunctions in H.
  cbn [existsb] in H. rewrite !orb_true_iff in H.
  repeat match type of H with
  | _ \/ _ => destruct H as [H | H]
  end;
    try discriminate H;
    apply String.eqb_eq in H; subst k; auto; vm_compute in Hlow; discriminate Hlow.
Qed.

(** On every input but those that come down to "constructor" or
    "__proto__", [parsePrompt] is the resolver of the specification. *)
Theorem parsePrompt_resolve_normal (s : string) :
  JSString.trim (JSString.toLowerCase s) <> "constructor"%string ->
  JSString.trim (JSString.toLowerCase s) <> "__proto__"%string ->
  parsePrompt s = of_option (resolve_spec s).
Proof.
  intros H1 H2. apply parsePrompt_resolve.
  destruct (inherited (JSString.trim (JSString.toLowerCase s))) eqn:E; [|reflexivity].
  destruct (inherited_lower (normal_lower s) E); contradiction.
Qed.

(** C1: on the input "constructor" the resolver returns the string
    "constructor", found on the prototype of [this.animations], where the
    five rules of the specification find no match; the same holds of
    "__proto__", and [setAnimation] accepts both. *)
Theorem parsePrompt_constructor :
  parsePrompt "constructor" = Str "constructor"
  /\ resolve_spec "constructor" = None
  /\ parsePrompt "__proto__" = Str "__proto__"
  /\ resolve_spec "__proto__" = None
  /\ fst (setAnimation (new_Animator (N := RNumber)) "constructor") = true.
Proof. vm_compute. repeat split; reflexivity. Qed.

Example parsePrompt_ROTATE :
  parsePrompt "  ROTATE  " = parsePrompt "rotate"
  /\ parsePrompt "rotate" = Str "rotate".
Proof. vm_compute. split; reflexivity. Qed.

Example parsePrompt_examples :
  parsePrompt "spin" = Str "spin"
  /\ parsePrompt "please make it dance now" = Str "dance"
  /\ parsePrompt "Turning around" = Str "rotate"
  /\ parsePrompt "zoop" = Null
  /\ parsePrompt "" = Null.
Proof. vm_compute. repeat split; reflexivity. Qed.

(** ** The store *)

Section Properties.

Context {num : Type} {N : JSNumber num}.

Local Open Scope num_scope.

Lemma upd_same (h : loc -> Vector3 num) l v : upd h l v l = v.
Proof. unfold upd. rewrite Nat.eqb_refl. reflexivity. Qed.

Lemma upd_other (h : loc -> Vector3 num) l l' v : l' <> l -> upd h l v l' = h l'.
Proof.
  intros H. unfold upd. destruct (Nat.eqb_spec l' l); [contradiction | reflexivity].
Qed.

(** Turn the inequalities of locations into facts about [Nat.eqb], and
    decide with them every comparison of locations in the goal. *)
Ltac eqb_facts :=
  repeat match goal with
  | H : ?a <> ?b |- _ =>
      let H1 := fresh "E" in
      let H2 := fresh "E" in
      assert (H1 : Nat.eqb a b = false) by (apply Nat.eqb_neq; exact H);
      assert (H2 : Nat.eqb b a = false)
        by (apply Nat.eqb_neq; intros ?; apply H; symmetry; assumption);
      clear H
  end.

Ltac locations :=
  eqb_facts;
  repeat first
    [ rewrite Nat.eqb_refl
    | match goal with
      | H : Nat.eqb ?a ?b = false |- context [Nat.eqb ?a ?b] => rewrite H
      end ];
  cbn [coord setCoord x y z].

Ltac open_store :=
  unfold animation,
    animateRotate, animateSpin, animateRoll, animateFlip, animateBounce,
    animateFloat, animateJump, animateHop, animateLevitate, animatePulse,
    animateBreathe, animateHeartbeat, animateGrow, animateShrink,
    animateShake, animateWave, animateSwing, animateSway, animateWobble,
    animateWalk, animateRun, animateDance, animateMarch, animateStrut,
    animateSpiral, animateOrbit, animateFly, animateZigzag, animatePendulum,
    animateTornado, animateEarthquake, animateCrazy,
    read, load, store, setScalar, set, copy, setHeap, Math_random, upd, vec;
  cbn [heap next entropy draws position rotation scale fst snd].

(** An animation writes the vectors of the model, and no other. *)
Lemma animation_frame a (m init : Object3D) t (w : World num) l :
  ~ In l (locs m) ->
  heap (animation a m init t w) l = heap w l.
Proof.
  intros Hl. destruct m as [mp mr ms].
  assert (l <> mp /\ l <> mr /\ l <> ms) as (H1 & H2 & H3)
    by (unfold locs in Hl; cbn in Hl; repeat split; intros ->; tauto).
  destruct a; open_store; locations; reflexivity.
Qed.

Lemma animation_next a (m init : Object3D) t (w : World num) :
  next (animation a m init t w) = next w
  /\ entropy (animation a m init t w) = entropy w.
Proof. destruct a; split; reflexivity. Qed.

Lemma animation_draws a (m init : Object3D) t (w : World num) :
  draws (animation a m init t w) =
  match a with
  | Earthquake => S (S (S (draws w)))
  | _ => draws w
  end.
Proof. destruct a; reflexivity. Qed.

Lemma NoDup3 (a b c : loc) : NoDup [a; b; c] -> a <> b /\ a <> c /\ b <> c.
Proof.
  intros H. inversion H as [|? ? Ha H']; subst.
  inversion H' as [|? ? Hb _]; subst.
  cbn in Ha, Hb. repeat split; intros ->; tauto.
Qed.

Lemma separate3 (m init : Object3D) :
  separate m init ->
  forall p q, vec m p <> vec init q.
Proof.
  intros H p q E. apply (H (vec m p)).
  - destruct p; cbn; tauto.
  - rewrite E. destruct q; cbn; tauto.
Qed.

(** Name the vectors of the model and of the rest pose, with the facts
    that keep them apart. *)
Ltac name_locations m init Hm Hsep :=
  let H := fresh in
  pose proof (separate3 Hsep) as H;
  pose proof (H Position Position); pose proof (H Position Rotation);
  pose proof (H Position Scale); pose proof (H Rotation Position);
  pose proof (H Rotation Rotation); pose proof (H Rotation Scale);
  pose proof (H Scale Position); pose proof (H Scale Rotation);
  pose proof (H Scale Scale); clear H Hsep;
  apply NoDup3 in Hm; destruct Hm as (? & ? & ?);
  destruct m as [mp mr ms]; destruct init as [ip ir is_];
  cbn [vec position rotation scale] in *.

(** A coordinate that an animation does not assign keeps its value. *)
Lemma animation_untouched a (m init : Object3D) t (w : World num) p ax :
  NoDup (locs m) ->
  touches a p ax = false ->
  read (animation a m init t w) m p ax = read w m p ax.
Proof.
  intros Hm Ht. apply NoDup3 in Hm. destruct Hm as (? & ? & ?).
  destruct m as [mp mr ms]. cbn [position rotation scale] in *.
  destruct a, p, ax; try discriminate Ht; clear Ht;
    open_store; locations; reflexivity.
Qed.

(** The rest pose is out of reach of an animation. *)
Lemma animation_rest a (m init : Object3D) t (w : World num) q ax :
  separate m init ->
  read (animation a m init t w) init q ax = read w init q ax.
Proof.
  intros Hsep. unfold read, load. rewrite animation_frame; [reflexivity|].
  intros Hin. apply (Hsep _ Hin). destruct q; cbn; tauto.
Qed.

(** Reads through writes. *)
Lemma load_store_eq (w : World num) l a n : load (store w l a n) l a = n.
Proof.
  unfold load, store, setHeap; cbn. rewrite upd_same. destruct a; reflexivity.
Qed.

Lemma load_store_axis (w : World num) l a a' n :
  a' <> a -> load (store w l a n) l a' = load w l a'.
Proof.
  intros H. unfold load, store, setHeap; cbn. rewrite upd_same.
  destruct a, a'; try reflexivity; contradiction.
Qed.

Lemma load_store_loc (w : World num) l l' a a' n :
  l' <> l -> load (store w l a n) l' a' = load w l' a'.
Proof.
  intros H. unfold load, store, setHeap; cbn. rewrite upd_other by exact H.
  reflexivity.
Qed.

Lemma load_set_eq (w : World num) l a b c ax :
  load (set w l a b c) l ax = coord {| x := a; y := b; z := c |} ax.
Proof. unfold load, set, setHeap; cbn. rewrite upd_same. reflexivity. Qed.

Lemma load_set_loc (w : World num) l l' a b c ax :
  l' <> l -> load (set w l a b c) l' ax = load w l' ax.
Proof.
  intros H. unfold load, set, setHeap; cbn. rewrite upd_other by exact H.
  reflexivity.
Qed.

Lemma load_copy_eq (w : World num) dst src ax :
  load (copy w dst src) dst ax = load w src ax.
Proof. unfold load, copy, setHeap; cbn. rewrite upd_same. reflexivity. Qed.

Lemma load_copy_loc (w : World num) dst src l ax :
  l <> dst -> load (copy w dst src) l ax = load w l ax.
Proof.
  intros H. unfold load, copy, setHeap; cbn. rewrite upd_other by exact H.
  reflexivity.
Qed.

Ltac apart := first [assumption | apply not_eq_sym; assumption | discriminate].

Ltac loads :=
  repeat first
    [ rewrite load_store_eq
    | rewrite load_store_axis by apart
    | rewrite load_store_loc by apart
    | rewrite load_set_eq
    | rewrite load_set_loc by apart
    | rewrite load_copy_eq
    | rewrite load_copy_loc by apart ];
  cbn [coord x y z].

Ltac open_animation :=
  unfold animation,
    animateRotate, animateSpin, animateRoll, animateFlip, animateBounce,
    animateFloat, animateJump, animateHop, animateLevitate, animatePulse,
    animateBreathe, animateHeartbeat, animateGrow, animateShrink,
    animateShake, animateWave, animateSwing, animateSway, animateWobble,
    animateWalk, animateRun, animateDance, animateMarch, animateStrut,
    animateSpiral, animateOrbit, animateFly, animateZigzag, animatePendulum,
    animateTornado, animateCrazy, setScalar, read;
  cbn [vec position rotation scale].

(** A coordinate that an animation other than [earthquake] assigns is
    computed from the time and the rest pose alone. *)
Lemma animation_written a (m init : Object3D) t (w1 w2 : World num) p ax :
  NoDup (locs m) ->
  separate m init ->
  a <> Earthquake ->
  (forall q bx, read w1 init q bx = read w2 init q bx) ->
  touches a p ax = true ->
  read (animation a m init t w1) m p ax = read (animation a m init t w2) m p ax.
Proof.
  intros Hm Hsep Ha Hrest Ht.
  pose proof (Hrest Position X). pose proof (Hrest Position Y).
  pose proof (Hrest Position Z). pose proof (Hrest Rotation X).
  pose proof (Hrest Rotation Y). pose proof (Hrest Rotation Z).
  pose proof (Hrest Scale X). pose proof (Hrest Scale Y).
  pose proof (Hrest Scale Z). clear Hrest.
  name_locations m init Hm Hsep.
  unfold read in *. cbn [vec position rotation scale] in *.
  destruct a, p, ax; try discriminate Ht; try congruence; clear Ht Ha;
    open_animation; loads; congruence.
Qed.

Lemma vector_ext (v v' : Vector3 num) :
  (forall a, coord v a = coord v' a) -> v = v'.
Proof.
  intros H. destruct v, v'.
  pose proof (H X). pose proof (H Y). pose proof (H Z).
  cbn in *. congruence.
Qed.

Lemma touches_dec a p ax : {touches a p ax = true} + {touches a p ax = false}.
Proof. destruct (touches a p ax); [left | right]; reflexivity. Qed.

(** Evaluating twice at the same time leaves what the first evaluation
    left. *)
Lemma animation_idempotent a (m init : Object3D) t (w : World num) :
  NoDup (locs m) ->
  separate m init ->
  a <> Earthquake ->
  sameHeap (animation a m init t (animation a m init t w))
           (animation a m init t w).
Proof.
  intros Hm Hsep Ha l.
  destruct (in_dec Nat.eq_dec l (locs m)) as [Hin | Hout].
  - assert (exists p, l = vec m p) as [p ->].
    { cbn in Hin. destruct Hin as [<- | [<- | [<- | []]]];
        [exists Position | exists Rotation | exists Scale]; reflexivity. }
    apply vector_ext. intros ax.
    change (read (animation a m init t (animation a m init t w)) m p ax
            = read (animation a m init t w) m p ax).
    destruct (touches_dec a p ax) as [Ht | Ht].
    + apply animation_written; auto.
      intros q bx. apply animation_rest. exact Hsep.
    + apply animation_untouched; assumption.
  - apply animation_frame. exact Hout.
Qed.

(** ** What the resolver accepts *)

Lemma alias_targets_registered :
  forallb (fun p => truthy (Str (snd p)) && truthy (get animations (Str (snd p))))
          alias_table = true.
Proof. vm_compute. reflexivity. Qed.

Lemma canonical_ids_registered :
  forallb (fun k => truthy (Str k) && truthy (get animations (Str k)))
          canonical_ids = true.
Proof. vm_compute. reflexivity. Qed.

(** Every string that [parsePrompt] returns passes the test of
    [setAnimation]. *)
Lemma parsePrompt_accepted (s : string) :
  parsePrompt s = Null \/
  exists id, parsePrompt s = Str id /\
             truthy (Str id) && truthy (get animations (Str id)) = true.
Proof.
  unfold parsePrompt. set (lp := JSString.trim (JSString.toLowerCase s)).
  destruct (truthy (get animations (Str lp))) eqn:E1.
  - right. exists lp. split; [reflexivity|]. rewrite E1, andb_true_r.
    destruct (String.eqb_spec lp ""%string) as [E | E]; [|cbn; now apply negb_true_iff, String.eqb_neq].
    rewrite E in E1. discriminate E1.
  - rewrite truthy_get_animations in E1. apply orb_false_iff in E1.
    destruct E1 as [_ Hk]. destruct (get_aliases lp Hk) as [Hget Htruthy].
    rewrite Htruthy, Hget. pose proof alias_targets_registered as Hal.
    rewrite forallb_forall in Hal.
    destruct (find _ alias_table) as [[phrase target]|] eqn:E2.
    { right. exists target. split; [reflexivity|].
      apply find_some_in in E2. exact (Hal _ E2). }
    unfold entries, aliases.
    rewrite (find_entries Str alias_table (fun k => JSString.includes lp k)).
    destruct (find (fun '(k, _) => JSString.includes lp k) alias_table)
      as [[phrase target]|] eqn:E3.
    { right. exists target. split; [reflexivity|].
      apply find_some_in in E3. exact (Hal _ E3). }
    change (keys animations) with canonical_ids.
    destruct (find _ canonical_ids) as [id|] eqn:E4; [|left; reflexivity].
    right. exists id. split; [reflexivity|].
    apply find_some in E4. destruct E4 as [E4 _].
    pose proof canonical_ids_registered as Hc.
    rewrite forallb_forall in Hc. exact (Hc _ E4).
Qed.

Lemma registered_method (k : string) (a : AnimationId) :
  In (k, a) animation_table ->
  get animations (Str k) = Method a /\ truthy (Str k) = true.
Proof.
  intros H. cbn in H.
  repeat (destruct H as [H | H]; [inversion H; subst; split; reflexivity|]).
  contradiction.
Qed.

(** ** setAnimation *)

Lemma setAnimation_accepts (this : Animator num) (s id : string) :
  parsePrompt s = Str id ->
  setAnimation this s = (true, setTime (setCurrentAnimation this (Str id)) (lit 0)).
Proof.
  intros H. unfold setAnimation.
  destruct (parsePrompt_accepted s) as [E | (id' & E & Hacc)];
    rewrite E in H; [discriminate|].
  injection H as ->. rewrite E, Hacc. reflexivity.
Qed.

(** C6: when the resolver finds no match, [setAnimation] returns false
    and the animator it returns is the animator it was given: the current
    animation, the time, the speed, the playing flag and the model are
    the same, and the store is not an argument of the call. *)
Theorem setAnimation_unknown (this : Animator num) (s : string) :
  parsePrompt s = Null ->
  setAnimation this s = (false, this).
Proof.
  intros H. unfold setAnimation. rewrite H. reflexivity.
Qed.

(** C4, as the code has it: when the resolver returns the string [id],
    [setAnimation] returns true, makes [id] the current animation and
    sets the time to 0; the playing flag, the speed, the model and the
    rest pose keep their values. *)
Theorem setAnimation_resolved (this : Animator num) (s id : string) :
  parsePrompt s = Str id ->
  exists this',
    setAnimation this s = (true, this')
    /\ currentAnimation this' = Str id
    /\ time this' = lit 0
    /\ isPlaying this' = isPlaying this
    /\ speed this' = speed this
    /\ model this' = model this
    /\ initialState this' = initialState this.
Proof.
  intros H. eexists. split; [exact (setAnimation_accepts this s H)|].
  repeat split.
Qed.

(** ** Pause and resume *)

Lemma update_paused (this : Animator num) dt (w : World num) :
  isPlaying this = false -> update this dt w = (Normal, this, w).
Proof.
  intros H. unfold update. rewrite H, !orb_true_r. reflexivity.
Qed.

Lemma updates_paused (this : Animator num) dts (w : World num) :
  isPlaying this = false -> updates this dts w = (this, w).
Proof.
  intros H. induction dts as [|dt dts IH]; cbn.
  - reflexivity.
  - rewrite update_paused by exact H. exact IH.
Qed.

(** C8: the ticks between [pause()] and the next [play()] change neither
    the animator nor the store, so the animator that [play()] returns is
    the one that [play()] returns before the pause, with the time it had,
    and the first tick after it is the tick that would have followed with
    no pause; [play()] and [pause()] leave the time alone. *)
Theorem pause_freezes_time (this : Animator num) (dts : list num) (w : World num) :
  updates (pause this) dts w = (pause this, w)
  /\ time (fst (updates (pause this) dts w)) = time this
  /\ play (fst (updates (pause this) dts w)) = play this
  /\ time (play (fst (updates (pause this) dts w))) = time this
  /\ (forall dt,
        update (play (fst (updates (pause this) dts w))) dt
               (snd (updates (pause this) dts w))
        = update (play this) dt w)
  /\ time (play this) = time this
  /\ time (pause this) = time this.
Proof.
  rewrite updates_paused by reflexivity. repeat split.
Qed.

(** ** Well-formed states *)

Lemma inv_new (w : World num) : inv new_Animator w.
Proof. split; intros ? H; discriminate H. Qed.

Lemma inv_fields (this this' : Animator num) (w w' : World num) :
  model this' = model this ->
  initialState this' = initialState this ->
  next w' = next w ->
  inv this w -> inv this' w'.
Proof.
  unfold inv, wellFormed. intros -> -> ->. tauto.
Qed.

Lemma inv_model (this : Animator num) (w : World num) m :
  inv this w -> model this = Some m ->
  NoDup (locs m) /\
  exists init, initialState this = Some init /\ separate m init.
Proof.
  intros [H _] Hm. destruct (H m Hm) as [[Hnd _] Hinit]. auto.
Qed.

(** ** The tick *)

(** What a tick does in a well-formed state: nothing; or it advances the
    time and the call leaves the store alone; or it advances the time and
    runs an animation on the model and the rest pose. *)
Lemma update_shape (this : Animator num) dt (w : World num) :
  inv this w ->
  update this dt w = (Normal, this, w)
  \/ (exists c, update this dt w
                = (c, setTime this (time this + dt * speed this), w))
  \/ (exists a m init,
        model this = Some m /\ initialState this = Some init /\
        get animations (currentAnimation this) = Method a /\
        update this dt w
        = (Normal, setTime this (time this + dt * speed this),
           animation a m init (time this + dt * speed this) w)).
Proof.
  intros Hinv. unfold update.
  destruct (model this) as [m|] eqn:Em; [|left; reflexivity].
  destruct (truthy (currentAnimation this)); [|left; reflexivity].
  destruct (isPlaying this); [|left; reflexivity].
  cbn [present negb orb currentAnimation setTime time].
  destruct (inv_model Hinv Em) as (_ & init & Ei & _).
  destruct (get animations (currentAnimation this)) as [| |s0|a|name|] eqn:Eg;
    cbn [truthy call].
  - right; left; eexists; reflexivity.
  - right; left; eexists; reflexivity.
  - right; left. destruct (negb (String.eqb s0 "")); eexists; reflexivity.
  - right; right. exists a, m, init. repeat split; try assumption.
    unfold callMethod. cbn [model initialState setTime]. rewrite Em, Ei.
    reflexivity.
  - right; left. eexists; reflexivity.
  - right; left; eexists; reflexivity.
Qed.

(** The tick when the current animation is a key that [setAnimation]
    found on [Object.prototype]: the time advances; [Object(t)] returns
    and moves nothing, and [Object.prototype] is not a function. *)
Lemma update_inherited (this : Animator num) dt (w : World num) m :
  model this = Some m ->
  isPlaying this = true ->
  (currentAnimation this = Str "constructor" ->
   update this dt w = (Normal, setTime this (time this + dt * speed this), w))
  /\ (currentAnimation this = Str "__proto__" ->
      update this dt w = (TypeError, setTime this (time this + dt * speed this), w)).
Proof.
  intros Em Hp. split; intros Ec; unfold update; rewrite Em, Ec, Hp;
    cbn [present negb orb truthy String.eqb Ascii.eqb Bool.eqb
         currentAnimation setTime];
    rewrite Ec; reflexivity.
Qed.

(** The tick where the current animation is a registered one or none:
    with a model attached (and so a rest pose: the state is one that the
    methods produce), a registered animation current and the animator
    playing, [update(dt)] advances the time by [dt * speed] and runs that
    animation on the model from the rest pose at the new time; with no
    model, no current animation or the animator not playing, it returns
    the animator and the store as they were.  The states that this leaves
    out are those of [update_inherited]. *)
Theorem update_spec (this : Animator num) (deltaTime : num) (w : World num) :
  (forall m k a,
     inv this w ->
     model this = Some m ->
     currentAnimation this = Str k -> In (k, a) animation_table ->
     isPlaying this = true ->
     exists init,
       initialState this = Some init /\
       update this deltaTime w
       = (Normal,
          setTime this (time this + deltaTime * speed this),
          animation a m init (time this + deltaTime * speed this) w))
  /\ (model this = None \/ currentAnimation this = Null \/ isPlaying this = false ->
      update this deltaTime w = (Normal, this, w)).
Proof.
  split.
  - intros m k a Hinv Em Ek Ha Hp.
    destruct (registered_method Ha) as [Hget Htr].
    destruct (inv_model Hinv Em) as (_ & init & Ei & _).
    exists init. split; [exact Ei|].
    unfold update. rewrite Em, Ek, Htr, Hp.
    cbn [present negb orb currentAnimation setTime time].
    rewrite Ek, Hget. cbn [truthy call]. unfold callMethod.
    cbn [model initialState setTime]. rewrite Em, Ei. reflexivity.
  - intros [H | [H | H]]; unfold update; rewrite H;
      rewrite ?orb_true_r; reflexivity.
Qed.

(** ** stop *)

(** [resetToInitialState] with a model and a rest pose: the model takes
    the rest pose, the rest pose stays. *)
Lemma reset_reads (m init : Object3D) (w : World num) :
  NoDup (locs m) -> separate m init ->
  let w' := copy (copy (copy w (position m) (position init))
                       (rotation m) (rotation init))
                 (scale m) (scale init) in
  (forall p ax, read w' m p ax = read w init p ax)
  /\ (forall p ax, read w' init p ax = read w init p ax)
  /\ (forall l, ~ In l (locs m) -> heap w' l = heap w l).
Proof.
  intros Hm Hsep w'. subst w'. repeat split.
  - intros p ax. name_locations m init Hm Hsep. unfold read.
    destruct p; cbn [vec position rotation scale]; loads; reflexivity.
  - intros p ax. name_locations m init Hm Hsep. unfold read.
    destruct p; cbn [vec position rotation scale]; loads; reflexivity.
  - intros l Hl. destruct m as [mp mr ms]. cbn in Hl.
    unfold copy, setHeap; cbn [heap position rotation scale].
    rewrite !upd_other; [reflexivity | | | ]; intros ->; tauto.
Qed.

(** C5, as the code has it: [stop()] clears the playing flag and the
    current animation and keeps the speed, the model and the rest pose;
    with a model attached it sets the time to 0 and every coordinate of
    the model to that of the rest pose, which stays as it was; with no
    model attached it leaves the time and the store as they were. *)
Theorem stop_spec (this : Animator num) (w : World num) :
  let this' := fst (stop this w) in
  let w' := snd (stop this w) in
  isPlaying this' = false
  /\ currentAnimation this' = Null
  /\ speed this' = speed this
  /\ model this' = model this
  /\ initialState this' = initialState this
  /\ (forall m, inv this w -> model this = Some m ->
        exists init, initialState this = Some init
          /\ time this' = lit 0
          /\ (forall p ax, read w' m p ax = read w init p ax)
          /\ (forall p ax, read w' init p ax = read w init p ax))
  /\ (model this = None -> time this' = time this /\ w' = w).
Proof.
  unfold stop, resetToInitialState.
  cbn [model initialState setCurrentAnimation setIsPlaying].
  destruct (model this) as [m|] eqn:Em.
  - destruct (initialState this) as [init|] eqn:Ei; cbn [fst snd].
    + repeat (split; [reflexivity|]).
      split; [exact Em|]. split; [exact Ei|]. split; [|discriminate].
      intros m' Hinv E. injection E as <-.
      destruct (inv_model Hinv Em) as (Hnd & init' & Ei' & Hsep).
      rewrite Ei in Ei'. injection Ei' as <-. exists init.
      destruct (reset_reads w Hnd Hsep) as (H1 & H2 & _).
      split; [reflexivity|]. split; [reflexivity|]. split; assumption.
    + repeat (split; [reflexivity|]).
      split; [exact Em|]. split; [exact Ei|]. split; [|discriminate].
      intros m' Hinv E.
      destruct (inv_model Hinv Em) as (_ & init' & Ei' & _).
      rewrite Ei in Ei'. discriminate Ei'.
  - cbn [fst snd]. repeat (split; [reflexivity|]).
    split; [exact Em|]. split; [reflexivity|]. split.
    + discriminate.
    + split; reflexivity.
Qed.

(** ** Evaluation *)

(** [pulse] sets the three scale coordinates from the x scale of the
    rest pose. *)
Lemma pulse_scale (m init : Object3D) t (w : World num) ax :
  read (animation Pulse m init t w) m Scale ax
  = read w init Scale X * (lit 1 + Math_sin (t * lit 4) * lit 0.15).
Proof.
  unfold animation, animatePulse, setScalar, read.
  cbn [vec]. rewrite load_set_eq. destruct ax; reflexivity.
Qed.

(** C7: evaluated at time 0 on a model that stands at its rest pose, an
    animation leaves every coordinate that it does not assign equal to the
    rest pose; and [pulse] leaves the whole transform equal to the rest
    pose: the position and the rotation because it does not assign them,
    the scale because sin(0) = 0.  The rest scale is uniform, as it is in
    every rest pose that the page captures: [addModel] sets the scale
    with [setScalar] before each [setModel] ([onModelLoaded_rest]).  The
    numbers being abstract, the laws that the evaluation of the factor
    [1 + sin(0 * 4) * 0.15] uses are hypotheses. *)
Theorem rest_at_zero (a : AnimationId) (m init : Object3D) (w : World num) :
  NoDup (locs m) ->
  (forall p ax, read w m p ax = read w init p ax) ->
  read w init Scale Y = read w init Scale X ->
  read w init Scale Z = read w init Scale X ->
  lit 0 * lit 4 = lit 0 ->
  Math_sin (lit 0) = lit 0 ->
  lit 0 * lit 0.15 = lit 0 ->
  lit 1 + lit 0 = lit 1 ->
  (forall b : num, b * lit 1 = b) ->
  (forall p ax, touches a p ax = false ->
     read (animation a m init (lit 0) w) m p ax = read w init p ax)
  /\ (forall p ax,
        read (animation Pulse m init (lit 0) w) m p ax = read w init p ax).
Proof.
  intros Hm Hrest Hy Hz H04 Hsin H015 H10 Hmul. split.
  - intros p ax Ht. rewrite animation_untouched by assumption. apply Hrest.
  - intros p ax. destruct p.
    + rewrite animation_untouched by (assumption || reflexivity). apply Hrest.
    + rewrite animation_untouched by (assumption || reflexivity). apply Hrest.
    + rewrite pulse_scale, H04, Hsin, H015, H10, Hmul.
      destruct ax; congruence.
Qed.

Lemma earthquake_reads (m init : Object3D) t (w : World num) :
  NoDup (locs m) -> separate m init ->
  let w' := animation Earthquake m init t w in
  draws w' = S (S (S (draws w)))
  /\ read w' m Position X
     = read w init Position X + (entropy w (draws w) - lit 0.5) * lit 0.1
  /\ read w' m Position Z
     = read w init Position Z + (entropy w (S (draws w)) - lit 0.5) * lit 0.1
  /\ read w' m Position Y
     = read w init Position Y + (entropy w (S (S (draws w))) - lit 0.5) * lit 0.05.
Proof.
  intros Hm Hsep w'. subst w'. split; [reflexivity|].
  name_locations m init Hm Hsep.
  unfold animation, animateEarthquake, Math_random, read.
  cbn [vec position rotation scale entropy draws heap next].
  repeat split; loads; reflexivity.
Qed.

(** C3, as the code has it: for an animation other than [earthquake], a
    second evaluation at the same time leaves every vector as the first
    left it, no random number is drawn, and each coordinate that the
    animation assigns has the same value from any two worlds that agree
    on the rest pose, whatever the model held before and whatever
    [Math.random] would return; each coordinate that the animation does
    not assign keeps the value that the model held before.  [earthquake]
    draws three new random numbers at every evaluation and offsets the
    rest position by them. *)
Theorem evaluation_deterministic (a : AnimationId) (m init : Object3D) (t : num)
    (w : World num) :
  NoDup (locs m) ->
  separate m init ->
  (a <> Earthquake ->
     sameHeap (animation a m init t (animation a m init t w))
              (animation a m init t w)
     /\ draws (animation a m init t w) = draws w
     /\ (forall w2 p ax,
           (forall q bx, read w init q bx = read w2 init q bx) ->
           touches a p ax = true ->
           read (animation a m init t w) m p ax
           = read (animation a m init t w2) m p ax)
     /\ (forall p ax,
           touches a p ax = false ->
           read (animation a m init t w) m p ax = read w m p ax))
  /\ (a = Earthquake ->
      let w' := animation a m init t w in
      draws w' = S (S (S (draws w)))
      /\ read w' m Position X
         = read w init Position X + (entropy w (draws w) - lit 0.5) * lit 0.1
      /\ read w' m Position Z
         = read w init Position Z + (entropy w (S (draws w)) - lit 0.5) * lit 0.1
      /\ read w' m Position Y
         = read w init Position Y
           + (entropy w (S (S (draws w))) - lit 0.5) * lit 0.05).
Proof.
  intros Hm Hsep. split.
  - intros Ha. split; [|split; [|split]].
    + apply animation_idempotent; assumption.
    + rewrite animation_draws. destruct a; congruence.
    + intros w2 p ax Hrest Ht. apply animation_written; assumption.
    + intros p ax Ht. apply animation_untouched; assumption.
  - intros ->. apply earthquake_reads; assumption.
Qed.

(** ** The rest pose *)

Lemma wellFormed_lt (w : World num) (o : Object3D) :
  wellFormed w o ->
  (position o < next w /\ rotation o < next w /\ scale o < next w)%nat.
Proof.
  intros [_ H]. unfold locs in H.
  inversion H as [|? ? H1 H']; subst. inversion H' as [|? ? H2 H'']; subst.
  inversion H'' as [|? ? H3 _]; subst. auto.
Qed.

(** [setModel(m)] captures the pose of [m] in three new vectors. *)
Lemma setModel_some (this : Animator num) (m : Object3D) (w : World num) :
  wellFormed w m ->
  let init := {| position := next w; rotation := S (next w);
                 scale := S (S (next w)) |} in
  let this' := fst (setModel this (Some m) w) in
  let w' := snd (setModel this (Some m) w) in
  model this' = Some m
  /\ initialState this' = Some init
  /\ next w' = S (S (S (next w)))
  /\ (forall l, (l < next w)%nat -> heap w' l = heap w l)
  /\ (forall p ax, read w' init p ax = read w m p ax)
  /\ separate m init
  /\ inv this' w'.
Proof.
  intros Hwf init this' w'.
  pose proof (wellFormed_lt Hwf) as (Hp & Hr & Hs).
  destruct Hwf as [Hnd _].
  assert (Hsep : separate m init).
  { intros l Hl Hl'. cbn in Hl, Hl'. lia. }
  assert (Hheap : forall l, (l < next w)%nat -> heap w' l = heap w l).
  { intros l Hl. subst w'. unfold setModel, saveInitialState, clone.
    cbn [model setModelField snd heap next].
    rewrite !upd_other by lia. reflexivity. }
  assert (Hread : forall p ax, read w' init p ax = read w m p ax).
  { intros p ax. subst w' init. unfold setModel, saveInitialState, clone, read, load.
    cbn [model setModelField snd heap next vec position rotation scale].
    destruct p; cbn [vec position rotation scale].
    - rewrite upd_other, upd_other, upd_same by lia. reflexivity.
    - rewrite upd_other, upd_same, upd_other by lia. reflexivity.
    - rewrite upd_same, upd_other, upd_other by lia. reflexivity. }
  repeat (split; [reflexivity|]).
  split; [exact Hheap|]. split; [exact Hread|]. split; [exact Hsep|].
  split.
  - intros m' E. cbn in E. injection E as <-. split.
    + split; [exact Hnd|]. cbn. repeat constructor; lia.
    + exists init. split; [reflexivity | exact Hsep].
  - intros i E. cbn in E. injection E as <-. split.
    + cbn. repeat constructor; cbn; lia.
    + cbn. repeat constructor; lia.
Qed.

(** [setModel(null)] detaches the model and keeps the rest pose. *)
Lemma setModel_none (this : Animator num) (w : World num) :
  setModel this None w = (setModelField this None, w).
Proof. reflexivity. Qed.

Lemma inv_setModel_none (this : Animator num) (w : World num) :
  inv this w -> inv (fst (setModel this None w)) (snd (setModel this None w)).
Proof.
  intros [_ H]. split.
  - intros m E. discriminate E.
  - exact H.
Qed.

(** [stop()] keeps the rest pose. *)
Lemma stop_rest (this : Animator num) (w : World num) :
  inv this w ->
  model (fst (stop this w)) = model this
  /\ initialState (fst (stop this w)) = initialState this
  /\ (forall init, initialState this = Some init ->
        forall p ax, read (snd (stop this w)) init p ax = read w init p ax).
Proof.
  intros Hinv. unfold stop, resetToInitialState.
  cbn [model initialState setCurrentAnimation setIsPlaying].
  destruct (model this) as [m|] eqn:Em.
  - destruct (inv_model Hinv Em) as (Hnd & init & Ei & Hsep).
    rewrite Ei. cbn [fst snd model initialState setTime setCurrentAnimation
                     setIsPlaying].
    split; [exact Em|]. split; [exact Ei|].
    intros i E p ax. injection E as <-.
    apply (reset_reads w Hnd Hsep).
  - cbn [fst snd model initialState setCurrentAnimation setIsPlaying].
    split; [exact Em|]. split; reflexivity.
Qed.

Lemma stop_next (this : Animator num) (w : World num) :
  next (snd (stop this w)) = next w.
Proof.
  unfold stop, resetToInitialState.
  cbn [model initialState setCurrentAnimation setIsPlaying].
  destruct (model this); [destruct (initialState this)|]; reflexivity.
Qed.

Lemma setAnimation_fields (this : Animator num) (s : string) :
  let this' := snd (setAnimation this s) in
  model this' = model this /\ initialState this' = initialState this
  /\ speed this' = speed this /\ isPlaying this' = isPlaying this.
Proof.
  unfold setAnimation.
  destruct (truthy (parsePrompt s) && truthy (get animations (parsePrompt s)));
    repeat split.
Qed.

(** One operation keeps the rest pose and the well-formedness. *)
Lemma exec_rest (op : Op num) (this : Animator num) (w : World num) :
  inv this w ->
  initialState (fst (exec op this w)) = initialState this
  /\ (forall init, initialState this = Some init ->
        forall p ax, read (snd (exec op this w)) init p ax = read w init p ax)
  /\ inv (fst (exec op this w)) (snd (exec op this w)).
Proof.
  intros Hinv. destruct op as [dt|a t| | | |s|name]; cbn [exec].
  - destruct (update_shape dt Hinv) as [E | [[c E] | (a & m & init & Em & Ei & _ & E)]];
      rewrite E; cbn [fst snd].
    + split; [reflexivity | split; [reflexivity | exact Hinv]].
    + split; [reflexivity | split; [reflexivity | exact Hinv]].
    + destruct (inv_model Hinv Em) as (_ & init' & Ei' & Hsep).
      rewrite Ei in Ei'. injection Ei' as <-.
      split; [reflexivity|]. split.
      * intros i E' p ax. rewrite Ei in E'. injection E' as <-.
        apply animation_rest. exact Hsep.
      * revert Hinv. apply inv_fields; try reflexivity.
        apply animation_next.
  - cbn [fst snd]. split; [reflexivity|]. unfold callMethod.
    destruct (model this) as [m|] eqn:Em;
      [|split; [reflexivity | exact Hinv]].
    destruct (inv_model Hinv Em) as (_ & init & Ei & Hsep).
    rewrite Ei. cbn [snd]. split.
    + intros i E' p ax. injection E' as <-.
      apply animation_rest. exact Hsep.
    + revert Hinv. apply inv_fields; try reflexivity. apply animation_next.
  - split; [reflexivity | split; [reflexivity | exact Hinv]].
  - split; [reflexivity | split; [reflexivity | exact Hinv]].
  - destruct (stop_rest Hinv) as (Hm & Hi & Hrest).
    split; [exact Hi|]. split; [exact Hrest|].
    revert Hinv. apply inv_fields; try assumption. apply stop_next.
  - split; [reflexivity | split; [reflexivity | exact Hinv]].
  - cbn [fst snd]. destruct (setAnimation_fields this name) as (Hm & Hi & _).
    split; [exact Hi|]. split; [reflexivity|].
    revert Hinv. apply inv_fields; auto.
Qed.

(** C9: no run of [update], of the animation functions, of [play],
    [pause], [stop], [setSpeed] and [setAnimation] changes which vectors
    hold the rest pose or any coordinate of them; [setModel(m)] replaces
    the rest pose by three newly allocated vectors, apart from those of
    [m], that hold the coordinates of [m], and [setModel(null)] keeps the
    rest pose. *)
Theorem rest_pose_immutable (this : Animator num) (w : World num) :
  inv this w ->
  (forall ops,
     initialState (fst (run ops this w)) = initialState this
     /\ (forall init, initialState this = Some init ->
           forall p ax, read (snd (run ops this w)) init p ax = read w init p ax)
     /\ inv (fst (run ops this w)) (snd (run ops this w)))
  /\ (forall m, wellFormed w m ->
        let this' := fst (setModel this (Some m) w) in
        let w' := snd (setModel this (Some m) w) in
        exists init,
          initialState this' = Some init
          /\ (forall l, In l (locs init) -> (next w <= l)%nat)
          /\ separate m init
          /\ (forall p ax, read w' init p ax = read w m p ax)
          /\ (forall l, (l < next w)%nat -> heap w' l = heap w l)
          /\ inv this' w')
  /\ initialState (fst (setModel this None w)) = initialState this.
Proof.
  intros Hinv. split; [|split].
  - intros ops. revert this w Hinv.
    induction ops as [|op ops IH]; intros this w Hinv; cbn [run].
    + split; [reflexivity | split; [reflexivity | exact Hinv]].
    + destruct (exec_rest op Hinv) as (Hi & Hrest & Hinv').
      destruct (exec op this w) as [this1 w1]. cbn [fst snd] in *.
      destruct (IH this1 w1 Hinv') as (Hi2 & Hrest2 & Hinv2).
      split; [congruence|]. split; [|exact Hinv2].
      intros init Ei p ax. rewrite Hrest2 by congruence. apply Hrest. exact Ei.
  - intros m Hwf this' w'.
    destruct (setModel_some this Hwf) as (_ & Hi & _ & Hheap & Hread & Hsep & Hinv').
    eexists. split; [exact Hi|].
    split; [|split; [exact Hsep | split; [exact Hread | split;
      [exact Hheap | exact Hinv']]]].
    intros l Hl. cbn in Hl. lia.
  - reflexivity.
Qed.

(** ** Switching the animation *)

Lemma updates_untouched (b : AnimationId) (id : string) (m : Object3D) p ax :
  In (id, b) animation_table ->
  touches b p ax = false ->
  forall dts (this : Animator num) (w : World num),
    inv this w -> model this = Some m -> currentAnimation this = Str id ->
    read (snd (updates this dts w)) m p ax = read w m p ax.
Proof.
  intros Hb Ht. destruct (registered_method Hb) as [Hget _].
  induction dts as [|dt dts IH]; intros this w Hinv Em Ec; cbn [updates].
  - reflexivity.
  - destruct (update_shape dt Hinv)
      as [E | [[c E] | (a & m' & init & Em' & Ei & Ea & E)]]; rewrite E.
    + apply IH; assumption.
    + apply IH; assumption.
    + rewrite Em in Em'. injection Em' as <-.
      rewrite Ec, Hget in Ea. injection Ea as <-.
      destruct (inv_model Hinv Em) as (Hnd & _).
      rewrite IH; try assumption.
      * apply animation_untouched; assumption.
      * revert Hinv. apply inv_fields; try reflexivity. apply animation_next.
Qed.

(** C10: [setAnimation] has no access to the store, so the model keeps
    the pose that the previous animation left; and once [setAnimation]
    has made the registered animation [b] current, every coordinate of
    the model that [b] does not assign has, after any number of ticks,
    the value it had when the animation was switched. *)
Theorem switch_keeps_untouched (this : Animator num) (w : World num)
    (s id : string) (b : AnimationId) (m : Object3D) :
  inv this w ->
  model this = Some m ->
  parsePrompt s = Str id ->
  In (id, b) animation_table ->
  fst (setAnimation this s) = true
  /\ currentAnimation (snd (setAnimation this s)) = Str id
  /\ forall dts p ax,
       touches b p ax = false ->
       read (snd (updates (snd (setAnimation this s)) dts w)) m p ax
       = read w m p ax.
Proof.
  intros Hinv Em Hs Hb. rewrite (setAnimation_accepts this s Hs). cbn [fst snd].
  split; [reflexivity|]. split; [reflexivity|].
  intros dts p ax Ht. apply (@updates_untouched b id m p ax Hb Ht).
  - revert Hinv. apply inv_fields; reflexivity.
  - exact Em.
  - reflexivity.
Qed.

(** ** Models as the page attaches them *)

(** [addModel] leaves one number in the three scale coordinates of the
    model, and allocates nothing. *)
Lemma addModel_uniform (divide : num -> num -> num) (m : Object3D)
    (size center : Vector3 num) (w : World num) :
  NoDup (locs m) ->
  next (addModel divide m size center w) = next w
  /\ read (addModel divide m size center w) m Scale Y
     = read (addModel divide m size center w) m Scale X
  /\ read (addModel divide m size center w) m Scale Z
     = read (addModel divide m size center w) m Scale X.
Proof.
  intros Hm. apply NoDup3 in Hm. destruct Hm as (Hpr & Hps & Hrs).
  split; [reflexivity|].
  unfold addModel, setScalar, read. cbv zeta. cbn [vec].
  split; loads; reflexivity.
Qed.

(** The rest pose that [onModelLoaded] captures: the model stands at it,
    and its scale is uniform. *)
Lemma onModelLoaded_rest (divide : num -> num -> num) (this : Animator num)
    (m : Object3D) (size center : Vector3 num) (w : World num) :
  wellFormed w m ->
  let this' := fst (onModelLoaded divide this m size center w) in
  let w' := snd (onModelLoaded divide this m size center w) in
  exists init,
    model this' = Some m
    /\ initialState this' = Some init
    /\ inv this' w'
    /\ (forall p ax, read w' m p ax = read w' init p ax)
    /\ read w' init Scale Y = read w' init Scale X
    /\ read w' init Scale Z = read w' init Scale X.
Proof.
  intros Hwf this' w'.
  destruct (addModel_uniform divide size center w (proj1 Hwf)) as (Hn & Hy & Hz).
  assert (Hwf1 : wellFormed (addModel divide m size center w) m).
  { destruct Hwf as [Hnd Hlt]. split; [exact Hnd|]. rewrite Hn. exact Hlt. }
  destruct (setModel_some this Hwf1) as (Hm & Hi & _ & Hheap & Hread & _ & Hinv).
  fold (onModelLoaded divide this m size center w) in Hm, Hi, Hheap, Hread, Hinv.
  fold this' in Hm, Hi, Hinv. fold w' in Hheap, Hread, Hinv.
  eexists. split; [exact Hm|]. split; [exact Hi|]. split; [exact Hinv|].
  assert (Hat : forall p ax,
    read w' m p ax = read (addModel divide m size center w) m p ax).
  { intros p ax. unfold read, load. rewrite Hheap; [reflexivity|].
    pose proof (wellFormed_lt Hwf1) as (Hp & Hr & Hs).
    destruct p; assumption. }
  split; [|split].
  - intros p ax. rewrite Hread. apply Hat.
  - rewrite !Hread. exact Hy.
  - rewrite !Hread. exact Hz.
Qed.

End Properties.

(** * Closed instances over the real numbers *)

Section Closed.

Import Scene.

Local Open Scope R_scope.

Lemma cube_wellFormed (sx sy sz : R) : wellFormed (world sx sy sz) cube.
Proof. split; cbn; repeat constructor; cbn; lia. Qed.

Lemma cube_locs : NoDup (locs cube).
Proof. cbn. repeat constructor; cbn; lia. Qed.

Lemma cube_rest_separate : separate cube rest.
Proof. intros l H H'. cbn in H, H'. lia. Qed.

Lemma stage_facts (sx sy sz : R) :
  model (loaded (world sx sy sz)) = Some cube
  /\ initialState (loaded (world sx sy sz)) = Some rest
  /\ (forall p ax, read (stage (world sx sy sz)) rest p ax
                   = read (world sx sy sz) cube p ax)
  /\ (forall p ax, read (stage (world sx sy sz)) cube p ax
                   = read (world sx sy sz) cube p ax)
  /\ inv (loaded (world sx sy sz)) (stage (world sx sy sz)).
Proof.
  destruct (setModel_some new_Animator (cube_wellFormed sx sy sz))
    as (Hm & Hi & _ & Hheap & Hread & _ & Hinv).
  repeat (split; [assumption|]). split; [|exact Hinv].
  intros p ax. unfold read, load. unfold stage, attached.
  rewrite Hheap; [reflexivity|]. destruct p; cbn; lia.
Qed.

Lemma rotating_inv (w : World R) :
  inv (loaded w) (stage w) -> inv (rotating w) (stage w).
Proof. apply inv_fields; reflexivity. Qed.

Ltac literals := cbv [lit add sub mul RNumber Q2R Qnum Qden].

Lemma pulse_factor_zero :
  (lit 1 + Math_sin (lit 0 * lit 4) * lit 0.15)%num = lit (num := R) 1.
Proof.
  change (Q2R 1 + sin (Q2R 0 * Q2R 4) * Q2R 0.15 = Q2R 1).
  replace (Q2R 0 * Q2R 4) with 0 by (unfold Q2R; cbn [Qnum Qden]; lra).
  rewrite sin_0. unfold Q2R; cbn [Qnum Qden]. lra.
Qed.

Lemma mul_lit_one (b : R) : (b * lit 1)%num = b.
Proof. change (b * Q2R 1 = b). unfold Q2R; cbn [Qnum Qden]. lra. Qed.

(** C4, refuted as stated: called on a paused animator, and on a stopped
    one, [setAnimation("rotate")] returns true and the animator it
    returns is not playing. *)
Lemma setAnimation_paused_counterexample :
  fst (setAnimation (pause (loaded uniform)) "rotate") = true
  /\ isPlaying (snd (setAnimation (pause (loaded uniform)) "rotate")) = false
  /\ fst (setAnimation (fst (stop (loaded uniform) (stage uniform))) "rotate") = true
  /\ isPlaying (snd (setAnimation (fst (stop (loaded uniform) (stage uniform)))
                                  "rotate")) = false.
Proof. repeat split. Qed.

(** C5, refuted as stated: after the model has been removed five seconds
    into a rotation, [stop()] leaves the time at 5. *)
Lemma stop_without_model_counterexample :
  model (fst removed) = None
  /\ time (fst (stop (fst removed) (snd removed))) = 5
  /\ time (fst (stop (fst removed) (snd removed))) <> lit 0.
Proof.
  assert (E : time (fst (stop (fst removed) (snd removed))) = lit 0 + 5 * lit 1.0)
    by reflexivity.
  split; [reflexivity|]. rewrite E. literals. split; lra.
Qed.

(** The scale animations read the x scale of the rest pose only: on a
    cube of scale (1, 2, 3) handed to [setModel] as it is (the page never
    does so, [addModel] comes first), [pulse] at time 0 sets the y scale
    to 1. *)
Remark pulse_stretched :
  (forall p ax, read (stage stretched) cube p ax = read (stage stretched) rest p ax)
  /\ read (animation Pulse cube rest (lit 0) (stage stretched)) cube Scale Y = 1
  /\ read (stage stretched) rest Scale Y = 2.
Proof.
  destruct (stage_facts 1 2 3) as (_ & _ & Hrest & Hcube & _).
  split; [|split].
  - intros p ax. unfold stretched. rewrite Hrest, Hcube. reflexivity.
  - rewrite pulse_scale, pulse_factor_zero, mul_lit_one.
    unfold stretched. rewrite Hrest. reflexivity.
  - unfold stretched. rewrite Hrest. reflexivity.
Qed.

(** C2, where the code departs from it: with the cube attached and the
    animator playing, [setAnimation("constructor")] returns true, though
    the registry has no such property of its own; the tick of one second
    that follows ends normally, moves the time from 0 to 1 and leaves the
    store as it was.  The time has advanced and no transform has been
    computed: the tick is neither of the two that the claim allows.  After
    [setAnimation("__proto__")] the tick ends in a TypeError. *)
Theorem update_constructor_tick :
  let this := snd (setAnimation (loaded uniform) "constructor") in
  let after := update this 1 (stage uniform) in
  fst (setAnimation (loaded uniform) "constructor") = true
  /\ own animations "constructor" = None
  /\ model this = Some cube
  /\ initialState this = Some rest
  /\ isPlaying this = true
  /\ currentAnimation this = Str "constructor"
  /\ time this = 0
  /\ fst (fst after) = Normal
  /\ time (snd (fst after)) = 1
  /\ snd after = stage uniform
  /\ fst (fst (update (snd (setAnimation (loaded uniform) "__proto__")) 1
                      (stage uniform))) = TypeError.
Proof.
  intros this after.
  destruct (@update_inherited R RNumber this 1 (stage uniform) cube
              eq_refl eq_refl) as [Hc _].
  destruct (@update_inherited R RNumber
              (snd (setAnimation (loaded uniform) "__proto__")) 1
              (stage uniform) cube eq_refl eq_refl) as [_ Hp].
  assert (Ea : after
               = (Normal, setTime this (time this + 1 * speed this)%num,
                  stage uniform))
    by (apply Hc; reflexivity).
  repeat (split; [reflexivity|]).
  split; [|split; [|split; [|split]]].
  - change (lit (num := R) 0 = 0). literals. lra.
  - rewrite Ea. reflexivity.
  - rewrite Ea. cbn [fst snd time setTime].
    change ((lit 0 + 1 * lit 1.0)%num = 1). literals. lra.
  - rewrite Ea. reflexivity.
  - rewrite (Hp eq_refl). reflexivity.
Qed.

(** C3, refuted as stated: [pulse] evaluated at time 1 against one and
    the same rest pose leaves the rotation about y at 2 on the cube that
    has rotated for two seconds, and at 0 on the cube just attached. *)
Lemma pulse_after_rotate_counterexample :
  (forall p ax, read (snd rotated) rest p ax = read (stage uniform) rest p ax)
  /\ read (animation Pulse cube rest 1 (snd rotated)) cube Rotation Y = 2
  /\ read (animation Pulse cube rest 1 (stage uniform)) cube Rotation Y = 0
  /\ read (animation Pulse cube rest 1 (snd rotated)) cube Rotation Y
     <> read (animation Pulse cube rest 1 (stage uniform)) cube Rotation Y.
Proof.
  destruct (stage_facts 1 1 1) as (_ & _ & Hrest & Hcube & _).
  assert (Er : snd rotated
               = animation Rotate cube rest (lit 0 + 2 * lit 1.0)%num (stage uniform))
    by reflexivity.
  assert (Hsame : forall p ax,
    read (snd rotated) rest p ax = read (stage uniform) rest p ax).
  { intros p ax. rewrite Er. apply animation_rest. exact cube_rest_separate. }
  assert (H2 : read (animation Pulse cube rest 1 (snd rotated)) cube Rotation Y = 2).
  { rewrite animation_untouched by (exact cube_locs || reflexivity).
    rewrite Er. unfold animation, animateRotate, read. cbn [vec rotation].
    rewrite load_store_eq.
    change (load (stage uniform) (rotation rest) Y)
      with (read (stage (world 1 1 1)) rest Rotation Y).
    rewrite Hrest. change (read (world 1 1 1) cube Rotation Y) with 0.
    literals. lra. }
  assert (H0 : read (animation Pulse cube rest 1 (stage uniform)) cube Rotation Y = 0).
  { rewrite animation_untouched by (exact cube_locs || reflexivity).
    unfold uniform. rewrite Hcube. reflexivity. }
  split; [exact Hsame|]. split; [exact H2|]. split; [exact H0|].
  rewrite H2, H0. lra.
Qed.

(** Two evaluations of [earthquake] at the same time, one after the
    other, leave the model in different places. *)
Example earthquake_differs :
  read (animation Earthquake cube rest 1 (stage uniform)) cube Position X
  <> read (animation Earthquake cube rest 1
             (animation Earthquake cube rest 1 (stage uniform))) cube Position X.
Proof.
  destruct (stage_facts 1 1 1) as (_ & _ & Hrest & _ & _).
  destruct (earthquake_reads 1 (stage uniform) cube_locs cube_rest_separate)
    as (_ & H1 & _).
  destruct (earthquake_reads 1 (animation Earthquake cube rest 1 (stage uniform))
              cube_locs cube_rest_separate) as (_ & H2 & _).
  assert (E0 : entropy (stage uniform) (draws (stage uniform)) = 0)
    by (cbn; lra).
  assert (E3 : entropy (animation Earthquake cube rest 1 (stage uniform))
                 (draws (animation Earthquake cube rest 1 (stage uniform)))
               = 3 / 10)
    by (cbn; lra).
  rewrite H1, H2, animation_rest by exact cube_rest_separate.
  rewrite E0, E3.
  literals. lra.
Qed.

(** *** Instances of the theorems *)

Lemma update_spec_witness :
  inv (rotating uniform) (stage uniform)
  /\ (exists init,
        initialState (rotating uniform) = Some init /\
        update (rotating uniform) 2 (stage uniform)
        = (Normal,
           setTime (rotating uniform)
             (time (rotating uniform) + 2 * speed (rotating uniform))%num,
           animation Rotate cube init
             (time (rotating uniform) + 2 * speed (rotating uniform))%num
             (stage uniform)))
  /\ update (pause (rotating uniform)) 2 (stage uniform)
     = (Normal, pause (rotating uniform), stage uniform).
Proof.
  assert (Hinv : inv (rotating uniform) (stage uniform))
    by (apply rotating_inv, stage_facts).
  split; [exact Hinv|]. split.
  - apply (proj1 (@update_spec R RNumber (rotating uniform) 2 (stage uniform))
             cube "rotate"%string Rotate);
      [exact Hinv | reflexivity | reflexivity | left; reflexivity | reflexivity].
  - apply (proj2 (@update_spec R RNumber (pause (rotating uniform)) 2
                    (stage uniform))).
    right; right; reflexivity.
Defined.

Lemma evaluation_deterministic_witness :
  NoDup (locs cube) /\ separate cube rest
  /\ sameHeap (animation Pulse cube rest 1 (animation Pulse cube rest 1 (stage uniform)))
              (animation Pulse cube rest 1 (stage uniform))
  /\ draws (animation Earthquake cube rest 1 (stage uniform))
     = S (S (S (draws (stage uniform)))).
Proof.
  split; [exact cube_locs|]. split; [exact cube_rest_separate|]. split.
  - apply (proj1 (@evaluation_deterministic R RNumber Pulse cube rest 1
                    (stage uniform) cube_locs cube_rest_separate)).
    discriminate.
  - apply (proj2 (@evaluation_deterministic R RNumber Earthquake cube rest 1
                    (stage uniform) cube_locs cube_rest_separate)).
    reflexivity.
Defined.

Lemma setAnimation_resolved_witness :
  parsePrompt "  ROTATE  " = Str "rotate"
  /\ exists this',
       setAnimation (pause (loaded uniform)) "  ROTATE  " = (true, this')
       /\ currentAnimation this' = Str "rotate"
       /\ time this' = lit 0
       /\ isPlaying this' = isPlaying (pause (loaded uniform))
       /\ speed this' = speed (pause (loaded uniform))
       /\ model this' = model (pause (loaded uniform))
       /\ initialState this' = initialState (pause (loaded uniform)).
Proof.
  split; [reflexivity|].
  apply (@setAnimation_resolved R RNumber (pause (loaded uniform))
           "  ROTATE  " "rotate").
  reflexivity.
Defined.

Lemma stop_spec_witness :
  inv (rotating uniform) (stage uniform)
  /\ isPlaying (fst (stop (rotating uniform) (stage uniform))) = false
  /\ currentAnimation (fst (stop (rotating uniform) (stage uniform))) = Null
  /\ time (fst (stop (rotating uniform) (stage uniform))) = lit 0
  /\ forall p ax,
       read (snd (stop (rotating uniform) (stage uniform))) cube p ax
       = read (stage uniform) rest p ax.
Proof.
  assert (Hinv : inv (rotating uniform) (stage uniform))
    by (apply rotating_inv, stage_facts).
  split; [exact Hinv|].
  destruct (@stop_spec R RNumber (rotating uniform) (stage uniform))
    as (H1 & H2 & _ & _ & _ & Hsome & _).
  split; [exact H1|]. split; [exact H2|].
  destruct (Hsome cube Hinv eq_refl) as (init & Ei & Ht & Hreads & _).
  split; [exact Ht|].
  intros p ax. injection Ei as <-. apply Hreads.
Defined.

Lemma setAnimation_unknown_witness :
  parsePrompt "zoop" = Null
  /\ setAnimation (rotating uniform) "zoop" = (false, rotating uniform)
  /\ setAnimation (rotating uniform) "" = (false, rotating uniform).
Proof.
  split; [reflexivity|]. split.
  - apply (@setAnimation_unknown R RNumber (rotating uniform) "zoop"). reflexivity.
  - apply (@setAnimation_unknown R RNumber (rotating uniform) ""). reflexivity.
Defined.

Lemma shown_wellFormed : wellFormed stretched cube.
Proof. exact (cube_wellFormed 1 2 3). Qed.

Lemma real_laws :
  (lit 0 * lit 4)%num = lit (num := R) 0
  /\ Math_sin (lit 0) = lit (num := R) 0
  /\ (lit 0 * lit 0.15)%num = lit (num := R) 0
  /\ (lit 1 + lit 0)%num = lit (num := R) 1.
Proof.
  assert (E0 : lit (num := R) 0 = 0) by (literals; lra).
  split; [|split; [|split]].
  - literals. lra.
  - rewrite E0. exact sin_0.
  - literals. lra.
  - literals. lra.
Qed.

Lemma rest_at_zero_witness :
  NoDup (locs cube)
  /\ (forall p ax, read (snd shown) cube p ax = read (snd shown) rest p ax)
  /\ read (snd shown) rest Scale Y = read (snd shown) rest Scale X
  /\ read (snd shown) rest Scale Z = read (snd shown) rest Scale X
  /\ (forall p ax, read (animation Pulse cube rest (lit 0) (snd shown)) cube p ax
                   = read (snd shown) rest p ax)
  /\ (forall ax, read (animation Bounce cube rest (lit 0) (snd shown)) cube Scale ax
                 = read (snd shown) rest Scale ax).
Proof.
  destruct (onModelLoaded_rest Rdiv new_Animator
              {| x := 1; y := 4; z := 3 |} {| x := 0; y := 1; z := 0 |}
              shown_wellFormed)
    as (init & _ & Hi & _ & Hat & Hy & Hz).
  fold shown in Hi, Hat, Hy, Hz.
  assert (Ei : initialState (fst shown) = Some rest) by reflexivity.
  rewrite Ei in Hi. injection Hi as <-.
  destruct real_laws as (H04 & Hsin & H015 & H10).
  split; [exact cube_locs|]. split; [exact Hat|].
  split; [exact Hy|]. split; [exact Hz|]. split.
  - apply (proj2 (@rest_at_zero R RNumber Pulse cube rest (snd shown) cube_locs
                    Hat Hy Hz H04 Hsin H015 H10 mul_lit_one)).
  - intros ax.
    apply (proj1 (@rest_at_zero R RNumber Bounce cube rest (snd shown) cube_locs
                    Hat Hy Hz H04 Hsin H015 H10 mul_lit_one)).
    destruct ax; reflexivity.
Defined.

Lemma rest_pose_immutable_witness :
  inv (rotating uniform) (stage uniform)
  /\ initialState
       (fst (run [OpUpdate 2; OpPause; OpSetAnimation "dance"; OpPlay;
                  OpUpdate 1; OpSetSpeed 3; OpAnimate Crazy 7; OpStop]
                 (rotating uniform) (stage uniform)))
     = Some rest
  /\ forall p ax,
       read (snd (run [OpUpdate 2; OpPause; OpSetAnimation "dance"; OpPlay;
                       OpUpdate 1; OpSetSpeed 3; OpAnimate Crazy 7; OpStop]
                      (rotating uniform) (stage uniform))) rest p ax
       = read (stage uniform) rest p ax.
Proof.
  assert (Hinv : inv (rotating uniform) (stage uniform))
    by (apply rotating_inv, stage_facts).
  split; [exact Hinv|].
  destruct (proj1 (@rest_pose_immutable R RNumber (rotating uniform)
                     (stage uniform) Hinv)
              [OpUpdate 2; OpPause; OpSetAnimation "dance"; OpPlay;
               OpUpdate 1; OpSetSpeed 3; OpAnimate Crazy 7; OpStop])
    as (Hi & Hrest & _).
  split.
  - rewrite Hi. reflexivity.
  - apply Hrest. reflexivity.
Defined.

Lemma bounced_facts :
  inv (fst bounced) (snd bounced)
  /\ model (fst bounced) = Some cube
  /\ read (snd bounced) cube Position Y = 1 + Rabs (sin 4) * / 2.
Proof.
  assert (Hinv : inv (snd (setAnimation (loaded uniform) "bounce")) (stage uniform)).
  { generalize (proj2 (proj2 (proj2 (proj2 (stage_facts 1 1 1))))).
    apply inv_fields; reflexivity. }
  split; [|split].
  - exact (proj2 (proj2 (exec_rest (OpUpdate 1) Hinv))).
  - reflexivity.
  - change (snd bounced)
      with (animation Bounce cube rest (lit 0 + 1 * lit 1.0)%num (stage uniform)).
    unfold animation, animateBounce, read. cbn [vec position].
    rewrite load_store_eq.
    change (load (stage uniform) (position rest) Y)
      with (read (stage (world 1 1 1)) rest Position Y).
    rewrite (proj1 (proj2 (proj2 (stage_facts 1 1 1)))).
    change (read (world 1 1 1) cube Position Y) with 1.
    cbv [lit add mul Math_abs Math_sin RNumber].
    replace ((Q2R 0 + 1 * Q2R 1.0) * Q2R 4) with 4
      by (unfold Q2R; cbn [Qnum Qden]; lra).
    unfold Q2R; cbn [Qnum Qden]. lra.
Qed.

(** After [bounce] then [pulse], the height of the model is the one that
    the last tick of [bounce] gave it. *)
Example bounce_then_pulse :
  read (snd (updates (snd (setAnimation (fst bounced) "pulse")) [1; 1; 1]
                     (snd bounced))) cube Position Y
  = 1 + Rabs (sin 4) * / 2
  /\ read (snd bounced) rest Position Y = 1.
Proof.
  destruct bounced_facts as (Hinv & Hm & Hy).
  split.
  - rewrite <- Hy.
    apply (@updates_untouched R RNumber Pulse "pulse" cube Position Y).
    + cbn; repeat (try (left; reflexivity); right).
    + reflexivity.
    + revert Hinv. apply inv_fields; reflexivity.
    + exact Hm.
    + reflexivity.
  - change (snd bounced)
      with (animation Bounce cube rest (lit 0 + 1 * lit 1.0)%num (stage uniform)).
    rewrite animation_rest by exact cube_rest_separate.
    change (stage uniform) with (stage (world 1 1 1)).
    rewrite (proj1 (proj2 (proj2 (stage_facts 1 1 1)))). reflexivity.
Qed.

Lemma switch_keeps_untouched_witness :
  inv (fst bounced) (snd bounced)
  /\ model (fst bounced) = Some cube
  /\ parsePrompt "pulse" = Str "pulse"
  /\ In ("pulse"%string, Pulse) animation_table
  /\ forall p ax,
       touches Pulse p ax = false ->
       read (snd (updates (snd (setAnimation (fst bounced) "pulse"))
                          [1; 1; 1] (snd bounced))) cube p ax
       = read (snd bounced) cube p ax.
Proof.
  destruct bounced_facts as (Hinv & Hm & _).
  assert (Hin : In ("pulse"%string, Pulse) animation_table)
    by (cbn; repeat (try (left; reflexivity); right)).
  split; [exact Hinv|]. split; [exact Hm|]. split; [reflexivity|].
  split; [exact Hin|].
  destruct (@switch_keeps_untouched R RNumber (fst bounced) (snd bounced)
              "pulse" "pulse" Pulse cube Hinv Hm eq_refl Hin)
    as (_ & _ & H).
  intros p ax Ht. apply H. exact Ht.
Defined.

End Closed.

(** * Further properties *)

(** ** The resolver on every input *)

Lemma trimEnd_cons (c : ascii) (s : string) :
  JSString.trimEnd (String c s) =
  match JSString.trimEnd s with
  | EmptyString => if JSString.isSpace c then EmptyString else String c EmptyString
  | r => String c r
  end.
Proof. reflexivity. Qed.

Lemma trimEnd_idempotent (s : string) :
  JSString.trimEnd (JSString.trimEnd s) = JSString.trimEnd s.
Proof.
  induction s as [|c s IH]; [reflexivity|].
  rewrite trimEnd_cons.
  destruct (JSString.trimEnd s) as [|d r] eqn:E.
  - destruct (JSString.isSpace c) eqn:Ec; [reflexivity|].
    rewrite trimEnd_cons. cbn. rewrite Ec. reflexivity.
  - rewrite trimEnd_cons, IH. reflexivity.
Qed.

(** A string that is empty or starts with a character that is not white
    space. *)
Lemma trimStart_head (s : string) :
  match JSString.trimStart s with
  | EmptyString => True
  | String c _ => JSString.isSpace c = false
  end.
Proof.
  induction s as [|c s IH]; cbn; [exact I|].
  destruct (JSString.isSpace c) eqn:E; [exact IH | exact E].
Qed.

Lemma trimStart_trimEnd (s : string) :
  match s with
  | EmptyString => True
  | String c _ => JSString.isSpace c = false
  end ->
  JSString.trimStart (JSString.trimEnd s) = JSString.trimEnd s.
Proof.
  destruct s as [|c s]; intros H; [reflexivity|].
  rewrite trimEnd_cons.
  destruct (JSString.trimEnd s); rewrite ?H; cbn; rewrite H; reflexivity.
Qed.

Lemma trim_idempotent (s : string) :
  JSString.trim (JSString.trim s) = JSString.trim s.
Proof.
  unfold JSString.trim.
  rewrite (trimStart_trimEnd (JSString.trimStart s) (trimStart_head s)).
  apply trimEnd_idempotent.
Qed.

Lemma toLowerCase_trim (s : string) :
  JSString.toLowerCase (JSString.trim s) = JSString.trim (JSString.toLowerCase s).
Proof.
  unfold JSString.trim. now rewrite toLowerCase_trimEnd, toLowerCase_trimStart.
Qed.

Lemma parsePrompt_normal (s s' : string) :
  JSString.trim (JSString.toLowerCase s) = JSString.trim (JSString.toLowerCase s') ->
  parsePrompt s = parsePrompt s'.
Proof. intros H. unfold parsePrompt. rewrite H. reflexivity. Qed.

Lemma parsePrompt_trim (s : string) : parsePrompt (JSString.trim s) = parsePrompt s.
Proof.
  apply parsePrompt_normal. now rewrite toLowerCase_trim, trim_idempotent.
Qed.

Lemma parsePrompt_toLowerCase (s : string) :
  parsePrompt (JSString.toLowerCase s) = parsePrompt s.
Proof. apply parsePrompt_normal. now rewrite toLowerCase_idempotent. Qed.

(** X1: the resolver does not see the case of its input nor the white
    space around it: trimming the input, lowercasing it, or giving it in
    the form the lookups use, changes no answer, and [setAnimation]
    follows. *)
Theorem parsePrompt_insensitive (s : string) :
  parsePrompt (JSString.trim s) = parsePrompt s
  /\ parsePrompt (JSString.toLowerCase s) = parsePrompt s
  /\ parsePrompt (JSString.trim (JSString.toLowerCase s)) = parsePrompt s
  /\ forall (num : Type) (N : JSNumber num) (this : Animator num),
       setAnimation this (JSString.trim s) = setAnimation this s
       /\ setAnimation this (JSString.toLowerCase s) = setAnimation this s.
Proof.
  pose proof (parsePrompt_trim s) as H1.
  pose proof (parsePrompt_toLowerCase s) as H2.
  split; [exact H1|]. split; [exact H2|]. split.
  - apply parsePrompt_normal.
    now rewrite normal_lower, trim_idempotent.
  - intros num N this. unfold setAnimation. rewrite H1, H2. split; reflexivity.
Qed.

Lemma canonical_lower :
  forallb (fun k => String.eqb (JSString.trim (JSString.toLowerCase k)) k)
          canonical_ids = true.
Proof. vm_compute. reflexivity. Qed.

Lemma alias_targets_canonical :
  forallb (fun p => mem (snd p) canonical_ids) alias_table = true.
Proof. vm_compute. reflexivity. Qed.

Lemma mem_In (k : string) (l : list string) : mem k l = true <-> In k l.
Proof.
  unfold mem. rewrite existsb_exists. split.
  - intros (x & Hx & E). apply String.eqb_eq in E. now subst.
  - intros H. exists k. split; [exact H | apply String.eqb_refl].
Qed.

(** An input whose lookup form is a registered name resolves to it. *)
Lemma parsePrompt_exact (s k : string) :
  mem k canonical_ids = true ->
  JSString.trim (JSString.toLowerCase s) = k ->
  parsePrompt s = Str k.
Proof.
  intros Hk Hs. unfold parsePrompt. rewrite Hs, truthy_get_animations, Hk.
  reflexivity.
Qed.

Lemma parsePrompt_canonical (k : string) :
  mem k canonical_ids = true -> parsePrompt k = Str k.
Proof.
  intros Hk. apply parsePrompt_exact; [exact Hk|].
  pose proof canonical_lower as H. rewrite forallb_forall in H.
  apply String.eqb_eq, H, mem_In, Hk.
Qed.

(** X2: the resolver answers null, a registered name, or one of the two
    keys [constructor] and [__proto__] that a lowercased input can find on
    [Object.prototype]; and an answer resolves to itself. *)
Theorem parsePrompt_range (s : string) :
  parsePrompt s = Null
  \/ exists id,
       parsePrompt s = Str id
       /\ (mem id canonical_ids = true
           \/ id = "constructor"%string \/ id = "__proto__"%string)
       /\ parsePrompt id = Str id.
Proof.
  assert (Hcan : forall id, mem id canonical_ids = true ->
    (mem id canonical_ids = true
     \/ id = "constructor"%string \/ id = "__proto__"%string)
    /\ parsePrompt id = Str id).
  { intros id H. split; [left; exact H | apply parsePrompt_canonical, H]. }
  pose proof alias_targets_canonical as Hal. rewrite forallb_forall in Hal.
  unfold parsePrompt at 1 2. set (lp := JSString.trim (JSString.toLowerCase s)).
  destruct (truthy (get animations (Str lp))) eqn:E1.
  - right. exists lp. split; [reflexivity|].
    rewrite truthy_get_animations in E1. apply orb_true_iff in E1.
    destruct E1 as [E1 | E1]; [exact (Hcan _ E1)|].
    destruct (inherited_lower (normal_lower s) E1) as [E | E];
      fold lp in E; rewrite E; split; auto.
  - rewrite truthy_get_animations in E1. apply orb_false_iff in E1.
    destruct E1 as [_ Hk]. destruct (get_aliases lp Hk) as [Hget Htruthy].
    rewrite Htruthy, Hget.
    destruct (find _ alias_table) as [[phrase target]|] eqn:E2.
    { right. exists target. split; [reflexivity|].
      apply find_some_in in E2. exact (Hcan _ (Hal _ E2)). }
    unfold entries, aliases.
    rewrite (find_entries Str alias_table (fun k => JSString.includes lp k)).
    destruct (find (fun '(k, _) => JSString.includes lp k) alias_table)
      as [[phrase target]|] eqn:E3.
    { right. exists target. split; [reflexivity|].
      apply find_some_in in E3. exact (Hcan _ (Hal _ E3)). }
    change (keys animations) with canonical_ids.
    destruct (find _ canonical_ids) as [id|] eqn:E4; [|left; reflexivity].
    right. exists id. split; [reflexivity|].
    apply find_some in E4. destruct E4 as [E4 _].
    apply Hcan, mem_In, E4.
Qed.

Lemma alias_resolves (phrase target : string) :
  In (phrase, target) alias_table ->
  JSString.trim (JSString.toLowerCase phrase) = phrase
  /\ parsePrompt phrase = Str target
  /\ In target getAvailableAnimations.
Proof.
  intros H. cbn in H.
  repeat (destruct H as [H | H];
          [injection H as <- <-; split; [reflexivity|]; split;
             [reflexivity | apply mem_In; reflexivity]|]).
  contradiction.
Qed.

Section Playback.

Context {num : Type} {N : JSNumber num}.

Local Open Scope num_scope.

(** X3: every name that [getAvailableAnimations()] lists, and every
    phrase of the alias table, is accepted by [setAnimation] in any case
    and with any white space around it; [getCurrentAnimation()] then
    returns the listed name, or the target of the alias, which is a
    listed name. *)
Theorem available_accepted (this : Animator num) (s : string) :
  (forall k,
     In k getAvailableAnimations ->
     JSString.trim (JSString.toLowerCase s) = k ->
     fst (setAnimation this s) = true
     /\ getCurrentAnimation (snd (setAnimation this s)) = Str k)
  /\ (forall phrase target,
        In (phrase, target) alias_table ->
        JSString.trim (JSString.toLowerCase s) = phrase ->
        fst (setAnimation this s) = true
        /\ getCurrentAnimation (snd (setAnimation this s)) = Str target
        /\ In target getAvailableAnimations).
Proof.
  split.
  - intros k Hk Hs.
    assert (E : parsePrompt s = Str k)
      by (apply parsePrompt_exact; [apply mem_In; exact Hk | exact Hs]).
    rewrite (setAnimation_accepts this s E). split; reflexivity.
  - intros phrase target Hin Hs.
    destruct (alias_resolves Hin) as (Hn & Hp & Ht).
    assert (E : parsePrompt s = Str target).
    { rewrite <- Hp. apply parsePrompt_normal. now rewrite Hs, Hn. }
    rewrite (setAnimation_accepts this s E). repeat split. exact Ht.
Qed.

(** ** What the animator writes *)

Lemma exec_model (op : Op num) (this : Animator num) (w : World num) :
  model (fst (exec op this w)) = model this.
Proof.
  destruct op as [dt|a t| | | |s|name]; cbn [exec fst]; try reflexivity.
  - unfold update.
    destruct (negb (present (model this)) || negb (truthy (currentAnimation this))
              || negb (isPlaying this)); [reflexivity|].
    cbn [currentAnimation setTime].
    destruct (truthy (get animations (currentAnimation this))); [|reflexivity].
    destruct (call _ _ _ w). reflexivity.
  - unfold stop, resetToInitialState.
    cbn [model initialState setCurrentAnimation setIsPlaying].
    destruct (model this) eqn:Em; [destruct (initialState this)|];
      cbn [fst model setTime setCurrentAnimation setIsPlaying]; exact Em.
  - apply setAnimation_fields.
Qed.

(** One operation writes the vectors of the attached model, and no
    other; with no model it leaves the world as it is. *)
Lemma exec_frame (op : Op num) (this : Animator num) (w : World num) :
  inv this w ->
  (forall m, model this = Some m ->
     forall l, ~ In l (locs m) -> heap (snd (exec op this w)) l = heap w l)
  /\ (model this = None -> snd (exec op this w) = w).
Proof.
  intros Hinv. split.
  - intros m Em l Hl. destruct op as [dt|a t| | | |s|name]; cbn [exec snd];
      try reflexivity.
    + destruct (update_shape dt Hinv)
        as [E | [[c E] | (a & m' & init & Em' & Ei & _ & E)]];
        rewrite E; cbn [snd]; try reflexivity.
      rewrite Em in Em'. injection Em' as <-. apply animation_frame. exact Hl.
    + unfold callMethod. rewrite Em.
      destruct (initialState this) as [init|]; cbn [snd].
      * apply animation_frame. exact Hl.
      * destruct a; reflexivity.
    + unfold stop, resetToInitialState.
      cbn [model initialState setCurrentAnimation setIsPlaying]. rewrite Em.
      destruct (inv_model Hinv Em) as (Hnd & init & Ei & Hsep). rewrite Ei.
      cbn [snd]. apply (reset_reads w Hnd Hsep). exact Hl.
  - intros Em. destruct op as [dt|a t| | | |s|name]; cbn [exec snd];
      try reflexivity.
    + unfold update. rewrite Em. reflexivity.
    + unfold callMethod. rewrite Em. reflexivity.
    + unfold stop, resetToInitialState.
      cbn [model initialState setCurrentAnimation setIsPlaying]. rewrite Em.
      reflexivity.
Qed.

(** A run keeps the model, the rest pose and the well-formedness. *)
Lemma run_keeps (ops : list (Op num)) (this : Animator num) (w : World num) :
  inv this w ->
  model (fst (run ops this w)) = model this
  /\ initialState (fst (run ops this w)) = initialState this
  /\ (forall init, initialState this = Some init ->
        forall p ax, read (snd (run ops this w)) init p ax = read w init p ax)
  /\ inv (fst (run ops this w)) (snd (run ops this w)).
Proof.
  revert this w. induction ops as [|op ops IH]; intros this w Hinv; cbn [run].
  - split; [reflexivity|]. split; [reflexivity|].
    split; [reflexivity | exact Hinv].
  - destruct (exec_rest op Hinv) as (Hi & Hrest & Hinv').
    pose proof (exec_model op this w) as Hm.
    destruct (exec op this w) as [this1 w1]. cbn [fst snd] in *.
    destruct (IH this1 w1 Hinv') as (Hm2 & Hi2 & Hrest2 & Hinv2).
    split; [congruence|]. split; [congruence|]. split; [|exact Hinv2].
    intros init Ei p ax. rewrite Hrest2 by congruence. apply Hrest. exact Ei.
Qed.

(** The rest pose of a model that the page has attached has a uniform
    scale, and keeps it whatever the animator does afterwards. *)
Lemma rest_scale_uniform (divide : num -> num -> num) (this : Animator num)
    (m : Object3D) (size center : Vector3 num) (w : World num)
    (ops : list (Op num)) :
  wellFormed w m ->
  let attached := onModelLoaded divide this m size center w in
  let later := run ops (fst attached) (snd attached) in
  exists init,
    initialState (fst later) = Some init
    /\ read (snd later) init Scale Y = read (snd later) init Scale X
    /\ read (snd later) init Scale Z = read (snd later) init Scale X.
Proof.
  intros Hwf attached later.
  destruct (onModelLoaded_rest divide this size center Hwf)
    as (init & _ & Hi & Hinv & _ & Hy & Hz).
  fold attached in Hi, Hinv, Hy, Hz.
  destruct (run_keeps ops Hinv) as (_ & Hi' & Hrest & _).
  fold later in Hi', Hrest.
  exists init. split; [congruence|].
  rewrite !(Hrest init Hi). split; assumption.
Qed.

(** X4: whatever is run on it, the animator writes only the position,
    the rotation and the scale of the attached model: every other vector
    of the store keeps its coordinates, and while no model is attached
    the store and the random numbers are left alone altogether. *)
Theorem animator_frame (ops : list (Op num)) (this : Animator num) (w : World num) :
  inv this w ->
  (forall m, model this = Some m ->
     forall l, ~ In l (locs m) -> heap (snd (run ops this w)) l = heap w l)
  /\ (model this = None -> snd (run ops this w) = w).
Proof.
  revert this w. induction ops as [|op ops IH]; intros this w Hinv; cbn [run].
  - split; reflexivity.
  - destruct (exec_frame op Hinv) as [Hf Hn].
    destruct (exec_rest op Hinv) as (_ & _ & Hinv').
    pose proof (exec_model op this w) as Hm.
    destruct (exec op this w) as [this1 w1]. cbn [fst snd] in *.
    destruct (IH this1 w1 Hinv') as [Hf2 Hn2]. split.
    + intros m Em l Hl. rewrite (Hf2 m) by congruence. apply (Hf m Em l Hl).
    + intros Em. rewrite Hn2 by congruence. apply Hn. exact Em.
Qed.

Lemma stop_restores (this : Animator num) (w : World num) (m init : Object3D) :
  inv this w -> model this = Some m -> initialState this = Some init ->
  time (fst (stop this w)) = lit 0
  /\ (forall p ax, read (snd (stop this w)) m p ax = read w init p ax)
  /\ (forall p ax, read (snd (stop this w)) init p ax = read w init p ax).
Proof.
  intros Hinv Em Ei. unfold stop, resetToInitialState.
  cbn [model initialState setCurrentAnimation setIsPlaying].
  destruct (inv_model Hinv Em) as (Hnd & init' & Ei' & Hsep).
  rewrite Ei in Ei'. injection Ei' as <-. rewrite Em, Ei. cbn [fst snd].
  destruct (reset_reads w Hnd Hsep) as (H1 & H2 & _).
  split; [reflexivity|]. split; assumption.
Qed.

(** X5: [setModel(m)] followed, after any run of the other operations,
    by [stop()] puts every coordinate of [m] back to the value it had when
    [setModel] was called. *)
Theorem capture_restore (this : Animator num) (w : World num) (m : Object3D)
    (ops : list (Op num)) :
  wellFormed w m ->
  let attached := setModel this (Some m) w in
  let ran := run ops (fst attached) (snd attached) in
  forall p ax, read (snd (stop (fst ran) (snd ran))) m p ax = read w m p ax.
Proof.
  intros Hwf attached ran p ax.
  destruct (setModel_some this Hwf) as (Hm & Hi & _ & _ & Hread & _ & Hinv).
  fold attached in Hm, Hi, Hread, Hinv.
  destruct (run_keeps ops Hinv) as (Hm2 & Hi2 & Hrest & Hinv2).
  fold ran in Hm2, Hi2, Hrest, Hinv2.
  rewrite Hm in Hm2. rewrite Hi in Hi2.
  destruct (stop_restores Hinv2 Hm2 Hi2) as (_ & Hback & _).
  rewrite Hback, (Hrest _ Hi). apply Hread.
Qed.

(** ** How the operations compose *)

(** The tick of a playing animator with a registered animation. *)
Lemma update_playing (this : Animator num) dt (w : World num) m init k a :
  model this = Some m -> initialState this = Some init ->
  currentAnimation this = Str k -> In (k, a) animation_table ->
  isPlaying this = true ->
  update this dt w
  = (Normal, setTime this (time this + dt * speed this),
     animation a m init (time this + dt * speed this) w).
Proof.
  intros Em Ei Ek Ha Hp. destruct (registered_method Ha) as [Hget Htr].
  unfold update. rewrite Em, Ek, Htr, Hp.
  cbn [present negb orb currentAnimation setTime time].
  rewrite Ek, Hget. cbn [truthy call]. unfold callMethod.
  cbn [model initialState setTime]. rewrite Em, Ei. reflexivity.
Qed.

(** What the tick of a registered animation leaves in the store: the rest
    pose as it was; the coordinates that the animation does not assign as
    they were; and in those that it assigns, values that depend on the
    rest pose, the time and the speed only, not on what the model held:
    from another animator and store with the same model, rest pose,
    animation, time and speed, the tick gives them the same values
    ([earthquake] apart).  For [rotate], [bounce] and [pulse] the values
    are spelled out. *)
Lemma update_recomputes (this : Animator num) dt (w : World num) m init k a :
  inv this w -> model this = Some m -> initialState this = Some init ->
  currentAnimation this = Str k -> In (k, a) animation_table ->
  isPlaying this = true ->
  let t := time this + dt * speed this in
  let w' := snd (update this dt w) in
  (forall q bx, read w' init q bx = read w init q bx)
  /\ (forall p ax, touches a p ax = false -> read w' m p ax = read w m p ax)
  /\ (a <> Earthquake ->
      forall (this2 : Animator num) (w2 : World num),
        model this2 = Some m -> initialState this2 = Some init ->
        currentAnimation this2 = Str k -> isPlaying this2 = true ->
        time this2 = time this -> speed this2 = speed this ->
        (forall q bx, read w init q bx = read w2 init q bx) ->
        forall p ax, touches a p ax = true ->
          read w' m p ax = read (snd (update this2 dt w2)) m p ax)
  /\ (a = Rotate -> read w' m Rotation Y = read w init Rotation Y + t)
  /\ (a = Bounce ->
      read w' m Position Y
      = read w init Position Y + Math_abs (Math_sin (t * lit 4)) * lit 0.5)
  /\ (a = Pulse ->
      forall ax,
        read w' m Scale ax
        = read w init Scale X * (lit 1 + Math_sin (t * lit 4) * lit 0.15)).
Proof.
  intros Hinv Em Ei Ek Ha Hp t w'.
  destruct (inv_model Hinv Em) as (Hnd & init' & Ei' & Hsep).
  rewrite Ei in Ei'. injection Ei' as <-.
  subst w'. rewrite (update_playing this dt w Em Ei Ek Ha Hp). cbn [snd].
  fold t.
  split; [|split; [|split; [|split; [|split]]]].
  - intros q bx. apply animation_rest. exact Hsep.
  - intros p ax Ht. apply animation_untouched; assumption.
  - intros Hne this2 w2 Em2 Ei2 Ek2 Hp2 Ht2 Hs2 Hrest p ax Ht.
    rewrite (update_playing this2 dt w2 Em2 Ei2 Ek2 Ha Hp2). cbn [snd].
    rewrite Ht2, Hs2. fold t. apply animation_written; assumption.
  - intros ->. unfold animation, animateRotate, read. cbn [vec].
    apply load_store_eq.
  - intros ->. unfold animation, animateBounce, read. cbn [vec].
    apply load_store_eq.
  - intros -> ax. apply pulse_scale.
Qed.

(** X6: attaching another model, or removing the model, leaves the
    current animation, the time, the speed and the playing flag as they
    are; so the next tick of a playing animator runs the animation that
    was current on the new model, from the pose the new model came with
    and at the time the old one had reached. *)
Theorem setModel_keeps_playback (this : Animator num) (w : World num)
    (m : Object3D) :
  wellFormed w m ->
  let this' := fst (setModel this (Some m) w) in
  let w' := snd (setModel this (Some m) w) in
  (getCurrentAnimation this' = getCurrentAnimation this
   /\ time this' = time this /\ speed this' = speed this
   /\ isPlaying this' = isPlaying this)
  /\ (getCurrentAnimation (fst (setModel this None w)) = getCurrentAnimation this
      /\ time (fst (setModel this None w)) = time this
      /\ speed (fst (setModel this None w)) = speed this
      /\ isPlaying (fst (setModel this None w)) = isPlaying this
      /\ snd (setModel this None w) = w)
  /\ (forall k a dt,
        currentAnimation this = Str k -> In (k, a) animation_table ->
        isPlaying this = true ->
        exists init,
          initialState this' = Some init
          /\ (forall p ax, read w' init p ax = read w m p ax)
          /\ update this' dt w'
             = (Normal, setTime this' (time this + dt * speed this),
                animation a m init (time this + dt * speed this) w')).
Proof.
  intros Hwf this' w'.
  destruct (setModel_some this Hwf) as (Hm & Hi & _ & _ & Hread & _ & _).
  fold this' in Hm, Hi. fold w' in Hread.
  split; [repeat split|]. split; [repeat split|].
  intros k a dt Ek Ha Hp. eexists. split; [exact Hi|]. split; [exact Hread|].
  exact (@update_playing this' dt w' m _ k a Hm Hi Ek Ha Hp).
Qed.

(** X7: after [stop()] the model stands at its rest pose and stays
    there: until [play()] is called, [setAnimation], whether it accepts
    its input or not, and any number of ticks leave the store as [stop()]
    left it, with the time at 0. *)
Theorem stopped_stays_at_rest (this : Animator num) (w : World num)
    (m init : Object3D) (s : string) (dts : list num) :
  inv this w -> model this = Some m -> initialState this = Some init ->
  let stopped := fst (stop this w) in
  let w1 := snd (stop this w) in
  let chosen := snd (setAnimation stopped s) in
  updates chosen dts w1 = (chosen, w1)
  /\ isPlaying chosen = false
  /\ time chosen = lit 0
  /\ (forall p ax, read w1 m p ax = read w init p ax).
Proof.
  intros Hinv Em Ei stopped w1 chosen.
  destruct (stop_restores Hinv Em Ei) as (Ht & Hback & _).
  fold stopped in Ht. fold w1 in Hback.
  assert (Hp : isPlaying chosen = false).
  { subst chosen. destruct (setAnimation_fields stopped s) as (_ & _ & _ & ->).
    subst stopped. unfold stop, resetToInitialState.
    cbn [model initialState setCurrentAnimation setIsPlaying].
    rewrite Em, Ei. reflexivity. }
  split; [apply updates_paused; exact Hp|]. split; [exact Hp|].
  split; [|exact Hback].
  subst chosen. unfold setAnimation.
  destruct (truthy (parsePrompt s) && truthy (get animations (parsePrompt s)));
    [reflexivity | exact Ht].
Qed.



Lemma call_this (f : value) (this this' : Animator num) t (w : World num) :
  model this' = model this -> initialState this' = initialState this ->
  call f this' t w = call f this t w.
Proof.
  intros Hm Hi. destruct f; try reflexivity.
  cbn [call]. unfold callMethod. rewrite Hm, Hi. reflexivity.
Qed.

(** X9: speed and frame time are exchangeable: where the product of
    numbers commutes, a tick of [b] seconds at speed [a] and a tick of [a]
    seconds at speed [b] end the same way, at the same time and with the
    same store. *)
Theorem speed_scaling (this : Animator num) (w : World num) (a b : num) :
  (forall u v : num, u * v = v * u) ->
  fst (fst (update (setSpeed this a) b w)) = fst (fst (update (setSpeed this b) a w))
  /\ time (snd (fst (update (setSpeed this a) b w)))
     = time (snd (fst (update (setSpeed this b) a w)))
  /\ snd (update (setSpeed this a) b w) = snd (update (setSpeed this b) a w).
Proof.
  intros Hcomm. unfold update, setSpeed.
  cbn [model currentAnimation isPlaying time speed setSpeedField setTime].
  destruct (negb (present (model this)) || negb (truthy (currentAnimation this))
            || negb (isPlaying this)); [repeat split|].
  rewrite (Hcomm b a).
  destruct (truthy (get animations (currentAnimation this))); [|repeat split].
  rewrite (@call_this (get animations (currentAnimation this))
             (setTime (setSpeedField this b) (time this + a * b))
             (setTime (setSpeedField this a) (time this + a * b))
             (time this + a * b) w eq_refl eq_refl).
  destruct (call _ _ _ w). repeat split.
Qed.

(** While a registered animation plays on an attached model, the ticks
    keep the animator in such a state; each ends normally and adds its
    [dt * speed] to the time. *)
Lemma updates_playing (dts : list num) (this : Animator num) (w : World num)
    (m : Object3D) (k : string) (a : AnimationId) :
  inv this w -> model this = Some m ->
  currentAnimation this = Str k -> In (k, a) animation_table ->
  isPlaying this = true ->
  completions this dts w = repeat Normal (length dts)
  /\ time (fst (updates this dts w))
     = fold_left (fun t dt => t + dt * speed this) dts (time this)
  /\ speed (fst (updates this dts w)) = speed this
  /\ isPlaying (fst (updates this dts w)) = true
  /\ currentAnimation (fst (updates this dts w)) = Str k
  /\ model (fst (updates this dts w)) = Some m.
Proof.
  revert this w. induction dts as [|dt dts IH]; intros this w Hinv Em Ek Ha Hp;
    cbn [updates completions fold_left length repeat].
  - repeat split; assumption.
  - destruct (inv_model Hinv Em) as (_ & init & Ei & _).
    rewrite (update_playing this dt w Em Ei Ek Ha Hp).
    destruct (IH (setTime this (time this + dt * speed this))
                 (animation a m init (time this + dt * speed this) w))
      as (Hc & Ht & Hs & Hp' & Hk & Hm); try assumption.
    + revert Hinv. apply inv_fields; try reflexivity. apply animation_next.
    + rewrite Hc. repeat split; assumption.
Qed.

(** X10: while a registered animation plays on an attached model every
    tick ends normally and adds its [dt * speed] to the time, in order;
    the ticks change neither the speed, nor the playing flag, nor the
    current animation. *)
Theorem time_accumulates (dts : list num) (this : Animator num) (w : World num)
    (m : Object3D) (k : string) (a : AnimationId) :
  inv this w -> model this = Some m ->
  currentAnimation this = Str k -> In (k, a) animation_table ->
  isPlaying this = true ->
  let this' := fst (updates this dts w) in
  completions this dts w = repeat Normal (length dts)
  /\ time this' = fold_left (fun t dt => t + dt * speed this) dts (time this)
  /\ speed this' = speed this
  /\ isPlaying this' = true
  /\ getCurrentAnimation this' = Str k
  /\ model this' = Some m.
Proof.
  intros Hinv Em Ek Ha Hp this'.
  destruct (updates_playing dts Hinv Em Ek Ha Hp)
    as (Hc & Ht & Hs & Hp' & Hk & Hm).
  subst this'. unfold getCurrentAnimation.
  split; [exact Hc|]. split; [exact Ht|]. split; [exact Hs|].
  split; [exact Hp'|]. split; [exact Hk | exact Hm].
Qed.

End Playback.

(** ** How far the animations go, over the real numbers *)

Section Bounds.

Local Open Scope R_scope.

Ltac apart := first [assumption | apply not_eq_sym; assumption | discriminate].

Ltac loads :=
  repeat first
    [ rewrite load_store_eq
    | rewrite load_store_axis by apart
    | rewrite load_store_loc by apart
    | rewrite load_set_eq
    | rewrite load_set_loc by apart ];
  cbn [coord x y z].

Ltac open_animation :=
  unfold animation,
    animateRotate, animateSpin, animateRoll, animateFlip, animateBounce,
    animateFloat, animateJump, animateHop, animateLevitate, animatePulse,
    animateBreathe, animateHeartbeat, animateGrow, animateShrink,
    animateShake, animateWave, animateSwing, animateSway, animateWobble,
    animateWalk, animateRun, animateDance, animateMarch, animateStrut,
    animateSpiral, animateOrbit, animateFly, animateZigzag, animatePendulum,
    animateTornado, animateCrazy, setScalar, read;
  cbn [vec position rotation scale].

Ltac name_locations m init Hm Hsep :=
  let H := fresh in
  pose proof (separate3 Hsep) as H;
  pose proof (H Position Position); pose proof (H Position Rotation);
  pose proof (H Position Scale); pose proof (H Rotation Position);
  pose proof (H Rotation Rotation); pose proof (H Rotation Scale);
  pose proof (H Scale Position); pose proof (H Scale Rotation);
  pose proof (H Scale Scale); clear H Hsep;
  apply NoDup3 in Hm; destruct Hm as (? & ? & ?);
  destruct m as [mp mr ms]; destruct init as [ip ir is_];
  cbn [vec position rotation scale] in *.

(** Turn the goal into one of real arithmetic over the sines, cosines,
    absolute values and maxima that occur in it, each with its bounds. *)
Ltac real_ops :=
  cbv [lit add sub mul rem gt Math_PI Math_sin Math_cos Math_abs Math_max
       RNumber Q2R Qnum Qden].

Ltac trig_bounds :=
  repeat match goal with
  | |- context [sin ?u] =>
      let v := fresh "s" in
      pose proof (SIN_bound u); set (v := sin u) in *; clearbody v
  | |- context [cos ?u] =>
      let v := fresh "c" in
      pose proof (COS_bound u); set (v := cos u) in *; clearbody v
  end;
  repeat match goal with
  | |- context [Rabs ?u] =>
      let v := fresh "a" in
      pose proof (Rabs_pos u);
      assert (Rabs u <= 1) by (apply Rabs_le; lra);
      set (v := Rabs u) in *; clearbody v
  | |- context [Rmax ?z ?u] =>
      let v := fresh "h" in
      pose proof (Rmax_l z u); pose proof (Rmax_r z u);
      assert (Rmax z u <= 1) by (apply Rmax_lub; lra);
      set (v := Rmax z u) in *; clearbody v
  end.

(** X11: over the real numbers, an animation that sets the scale keeps
    each scale coordinate between 0.6 and 1.5 times the x scale of the
    rest pose, when that is not negative: a model of positive scale is
    never flattened or turned inside out.  In [shrink] the factor is
    [1 - (sin(t * 0.5) + 1) * 0.2], never below 0.6, so that the floor
    [Math.max(0.3, ...)] is never the larger of the two. *)
Theorem scale_bounded (a : AnimationId) (m init : Object3D) (t : R)
    (w : World R) (ax : axis) :
  NoDup (locs m) ->
  separate m init ->
  0 <= read w init Scale X ->
  touches a Scale ax = true ->
  6 / 10 * read w init Scale X <= read (animation a m init t w) m Scale ax
                               <= 15 / 10 * read w init Scale X
  /\ read (animation Shrink m init t w) m Scale ax
     = read w init Scale X * (1 - (sin (t * (5 / 10)) + 1) * (2 / 10)).
Proof.
  intros Hm Hsep Hbase Ht. name_locations m init Hm Hsep.
  unfold read in *. cbn [vec position rotation scale] in *. split.
  - destruct a; try discriminate Ht; clear Ht;
      open_animation; loads; destruct ax; cbn [coord x y z]; real_ops;
      set (b := load w is_ X) in *; clearbody b;
      unfold Rgtb; repeat destruct (Rgt_dec _ _);
      trig_bounds; try (rewrite Rmax_right by lra); nra.
  - unfold animation, animateShrink, setScalar. rewrite load_set_eq.
    pose proof (SIN_bound (t * (5 * / 10))).
    destruct ax; cbn [coord x y z]; real_ops;
      (rewrite Rmax_right by lra); cbn [scale]; unfold Rdiv; field.
Qed.

(** X12: over the real numbers, an animation moves no position
    coordinate that it sets farther than 1 from the rest pose
    ([earthquake]: when [Math.random] stays between 0 and 1); and in
    thirteen of them, which take an absolute value, a maximum with 0 or a
    raised sine for the height, the model never goes under the height of
    its rest pose. *)
Theorem position_bounded (a : AnimationId) (m init : Object3D) (t : R)
    (w : World R) (ax : axis) :
  NoDup (locs m) ->
  separate m init ->
  (a = Earthquake -> forall n, 0 <= entropy w n <= 1) ->
  touches a Position ax = true ->
  Rabs (read (animation a m init t w) m Position ax - read w init Position ax) <= 1
  /\ (In a [Flip; Bounce; Jump; Hop; Levitate; Walk; Run; Dance; March; Strut;
            Fly; Pendulum; Crazy] ->
      read w init Position Y <= read (animation a m init t w) m Position Y).
Proof.
  intros Hm Hsep Hrand Ht.
  pose proof (earthquake_reads t w Hm Hsep) as (_ & Hx & Hz & Hy).
  name_locations m init Hm Hsep.
  unfold read in *. cbn [vec position rotation scale] in *. split.
  - apply Rabs_le.
    destruct a, ax; try discriminate Ht; clear Ht;
      first
        [ open_animation; loads; real_ops;
          match goal with
          | |- context [load w ?l ?c] => set (b := load w l c) in *; clearbody b
          end;
          trig_bounds; nra
        | rewrite ?Hx, ?Hy, ?Hz; real_ops;
          match goal with
          | |- context [entropy w ?n] => pose proof (Hrand eq_refl n)
          end; lra ].
  - intros Hin. cbn in Hin.
    repeat (destruct Hin as [<- | Hin];
            [open_animation; loads; real_ops;
             set (b := load w ip Y) in *; clearbody b; trig_bounds; nra|]).
    contradiction.
Qed.

End Bounds.

(** ** The page: the prompt box and the file name *)

Section Page.

Context {num : Type} {N : JSNumber num}.

(** X13: with a model loaded, [applyAnimation] leaves the animator as
    [setAnimation] leaves it on the text as typed: the page trims the text
    and drops a blank one without a word, and [setAnimation] would have
    refused that one and trims the others itself.  It reports the animation
    as active exactly when [setAnimation] returns true; with no model
    loaded, or no input element, the animator is not called. *)
Theorem applyAnimation_spec (text : string) (animator : Animator num) :
  snd (applyAnimation true (Some text) animator) = snd (setAnimation animator text)
  /\ (fst (applyAnimation true (Some text) animator) = ActiveShown
      <-> fst (setAnimation animator text) = true)
  /\ (fst (applyAnimation true (Some text) animator) = Ignored
      <-> JSString.trim text = ""%string)
  /\ applyAnimation false (Some text) animator
     = (if String.eqb (JSString.trim text) "" then Ignored else PleaseLoadModel,
        animator)
  /\ forall modelLoaded, applyAnimation modelLoaded None animator = (Ignored, animator).
Proof.
  assert (Hset : setAnimation animator (JSString.trim text) = setAnimation animator text)
    by (unfold setAnimation; rewrite parsePrompt_trim; reflexivity).
  unfold applyAnimation. cbn [truthy negb].
  destruct (String.eqb_spec (JSString.trim text) ""%string) as [E | E];
    cbn [negb].
  - assert (Hno : setAnimation animator text = (false, animator)).
    { rewrite <- Hset, E. reflexivity. }
    rewrite Hno. cbn [fst snd]. repeat split; try discriminate; auto.
  - rewrite Hset.
    destruct (setAnimation animator text) as [[|] animator']; cbn [fst snd];
      repeat split; try discriminate; auto; intros; contradiction.
Qed.

End Page.

Lemma split_cons (sep c : ascii) (s : string) :
  App.split sep (String c s) =
  if Ascii.eqb c sep then EmptyString :: App.split sep s
  else match App.split sep s with
       | head :: tail => String c head :: tail
       | [] => [String c EmptyString]
       end.
Proof. reflexivity. Qed.

Lemma split_nonempty (sep : ascii) (s : string) : App.split sep s <> [].
Proof.
  destruct s as [|c s]; [discriminate|]. rewrite split_cons.
  destruct (Ascii.eqb c sep); [discriminate|].
  destruct (App.split sep s); discriminate.
Qed.

(** [split] cuts at every separator. *)
Lemma split_app (sep : ascii) (a b : string) :
  App.split sep (a ++ String sep b) = App.split sep a ++ App.split sep b.
Proof.
  induction a as [|c a IH].
  - cbn [append]. rewrite split_cons, Ascii.eqb_refl. reflexivity.
  - cbn [append]. rewrite !split_cons, IH.
    destruct (Ascii.eqb c sep); [reflexivity|].
    pose proof (split_nonempty sep a).
    destruct (App.split sep a); [contradiction | reflexivity].
Qed.

Lemma split_join (sep : ascii) (s : string) : App.join sep (App.split sep s) = s.
Proof.
  induction s as [|c s IH]; [reflexivity|]. rewrite split_cons.
  pose proof (split_nonempty sep s) as Hne.
  destruct (Ascii.eqb_spec c sep) as [-> | Hc].
  - destruct (App.split sep s) as [|h t] eqn:E; [contradiction|].
    change (App.join sep (EmptyString :: h :: t))
      with (String sep (App.join sep (h :: t))).
    now rewrite IH.
  - destruct (App.split sep s) as [|h t] eqn:E; [contradiction|].
    destruct t as [|q r].
    + cbn [App.join] in *. now rewrite IH.
    + change (App.join sep (String c h :: q :: r))
        with (String c (App.join sep (h :: q :: r))).
      now rewrite IH.
Qed.

Lemma pop_app (l1 l2 : list string) : l2 <> [] -> App.pop (l1 ++ l2) = App.pop l2.
Proof.
  intros H. induction l1 as [|h l1 IH]; [reflexivity|].
  cbn [app]. destruct (l1 ++ l2) eqn:E.
  - destruct l1; [contradiction | discriminate].
  - exact IH.
Qed.

Lemma split_no_dot (s : string) : App.hasDot s = false -> App.split "." s = [s].
Proof.
  unfold App.hasDot. induction s as [|c s IH]; [reflexivity|].
  cbn [JSString.includes]. intros H. apply orb_false_iff in H. destruct H as [Hp Hs].
  rewrite split_cons. destruct (Ascii.eqb_spec c ".") as [-> | Hc].
  - cbn in Hp. destruct s; discriminate.
  - rewrite (IH Hs). reflexivity.
Qed.

(** X14: [loadFile] judges a file by what follows the last dot of its
    name, lowercased, and by the whole name when it has no dot; [glb] and
    [gltf] go to the GLTF loader, [obj] to the OBJ loader, and every other
    name is refused as an unsupported format: a name that passes the check
    always gets one of the two loaders, and [pop()] is never undefined. *)
Theorem format_by_suffix (pre suf : string) :
  App.hasDot suf = false ->
  App.extension (pre ++ String "." suf) = Some (JSString.toLowerCase suf)
  /\ App.extension suf = Some (JSString.toLowerCase suf)
  /\ App.format (pre ++ String "." suf) = App.format suf
  /\ App.format suf
     = (if mem (JSString.toLowerCase suf) ["glb"; "gltf"]%string then App.UseGLTFLoader
        else if String.eqb (JSString.toLowerCase suf) "obj" then App.UseOBJLoader
        else App.Unsupported (JSString.toLowerCase suf))
  /\ (forall name, App.format name <> App.NoLoader
                   /\ App.format name <> App.NoExtension).
Proof.
  intros Hdot.
  assert (Htotal : forall name, App.format name <> App.NoLoader
                                /\ App.format name <> App.NoExtension).
  { intros name. unfold App.format, App.extension.
    pose proof (split_nonempty "." name) as Hne.
    pose proof (pop_app [] Hne) as Hpop. cbn [app] in Hpop.
    destruct (App.pop (App.split "." name)) as [ext|] eqn:E; cbn [option_map].
    - unfold mem. cbn [existsb].
      destruct (String.eqb (JSString.toLowerCase ext) "glb");
        destruct (String.eqb (JSString.toLowerCase ext) "gltf");
        destruct (String.eqb (JSString.toLowerCase ext) "obj");
        cbn; split; discriminate.
    - exfalso. clear Hpop. revert E Hne.
      induction (App.split "." name) as [|h t IH]; [intros _ H; now apply H|].
      destruct t; [discriminate|]. intros E _. apply IH; [exact E | discriminate]. }
  assert (E1 : App.extension suf = Some (JSString.toLowerCase suf)).
  { unfold App.extension. rewrite (split_no_dot suf Hdot). reflexivity. }
  assert (E2 : App.extension (pre ++ String "." suf) = Some (JSString.toLowerCase suf)).
  { unfold App.extension.
    rewrite split_app, pop_app by apply split_nonempty. exact E1. }
  split; [exact E2|]. split; [exact E1|]. split; [|split; [|exact Htotal]].
  - unfold App.format. rewrite E1, E2. reflexivity.
  - unfold App.format. rewrite E1. unfold mem. cbn [existsb].
    destruct (String.eqb (JSString.toLowerCase suf) "glb");
      destruct (String.eqb (JSString.toLowerCase suf) "gltf");
      destruct (String.eqb (JSString.toLowerCase suf) "obj"); reflexivity.
Qed.

(** ** The light slider *)

Lemma forEachLight_length (num : Type) (N : JSNumber num) (lights : list num)
    (index : nat) (v : num) :
  length (forEachLight index v lights) = length lights.
Proof.
  revert index. induction lights as [|l lights IH]; intros index; cbn;
    [reflexivity | now rewrite IH].
Qed.

Lemma forEachLight_again (num : Type) (N : JSNumber num) (lights : list num)
    (index : nat) (a b : num) :
  forEachLight index b (forEachLight index a lights) = forEachLight index b lights.
Proof.
  revert index. induction lights as [|l lights IH]; intros index; cbn;
    [reflexivity | now rewrite IH].
Qed.

(** X15: [setLightIntensity] sets every light from the slider value
    alone: it keeps the number of lights, and of two calls only the second
    counts.  It gives the rim light and the point light the factor 0.4 of
    the fill light, where [setupLights] gave them 0.3 and 0.5: over the
    real numbers no slider value brings back the lighting the scene
    started with. *)
Theorem light_slider :
  (forall (num : Type) (N : JSNumber num) (lights : list num) (a b : num),
     length (setLightIntensity lights a) = length lights
     /\ setLightIntensity (setLightIntensity lights a) b = setLightIntensity lights b)
  /\ (forall v : R, setLightIntensity (num := R) setupLights v <> setupLights)
  /\ setLightIntensity (num := R) setupLights 1%R
     = [lit 0.5; lit 1.2; lit 0.4; lit 0.4; lit 0.4].
Proof.
  split; [|split].
  - intros num N lights a b. split.
    + apply forEachLight_length.
    + apply forEachLight_again.
  - intros v H. unfold setLightIntensity, setupLights in H. cbn [forEachLight Nat.eqb] in H.
    injection H as H0 H1 H2 H3 H4. revert H2 H3.
    cbv [lit mul RNumber Q2R Qnum Qden]. intros H2 H3. lra.
  - unfold setLightIntensity, setupLights. cbn [forEachLight Nat.eqb].
    cbv [lit mul RNumber Q2R Qnum Qden]. repeat (f_equal; try lra).
Qed.

(** *** Instances of the further theorems *)

Section Instances.

Import Scene.

Local Open Scope R_scope.

Lemma rotating_stage_inv : inv (rotating uniform) (stage uniform).
Proof. apply rotating_inv, stage_facts. Qed.

Lemma available_accepted_witness :
  In "pulse"%string getAvailableAnimations
  /\ JSString.trim (JSString.toLowerCase "  PULSE ") = "pulse"%string
  /\ getCurrentAnimation (snd (setAnimation (loaded uniform) "  PULSE ")) = Str "pulse"
  /\ In ("turning"%string, "rotate"%string) alias_table
  /\ getCurrentAnimation (snd (setAnimation (loaded uniform) "Turning ")) = Str "rotate".
Proof.
  assert (H1 : In "pulse"%string getAvailableAnimations)
    by (apply mem_In; reflexivity).
  assert (H2 : In ("turning"%string, "rotate"%string) alias_table)
    by (cbn; repeat (try (left; reflexivity); right)).
  split; [exact H1|]. split; [reflexivity|]. split; [|split; [exact H2|]].
  - apply (proj1 (@available_accepted R RNumber (loaded uniform) "  PULSE ")
             "pulse"%string H1 eq_refl).
  - apply (proj2 (@available_accepted R RNumber (loaded uniform) "Turning ")
             "turning"%string "rotate"%string H2 eq_refl).
Defined.

Lemma animator_frame_witness :
  inv (rotating uniform) (stage uniform)
  /\ model (rotating uniform) = Some cube
  /\ ~ In 4%nat (locs cube)
  /\ heap (snd (run [OpUpdate 2; OpSetAnimation "crazy"; OpUpdate 1; OpStop]
                    (rotating uniform) (stage uniform))) 4%nat
     = heap (stage uniform) 4%nat.
Proof.
  assert (Hout : ~ In 4%nat (locs cube)) by (cbn; lia).
  split; [exact rotating_stage_inv|]. split; [reflexivity|]. split; [exact Hout|].
  apply (proj1 (@animator_frame R RNumber
                  [OpUpdate 2; OpSetAnimation "crazy"; OpUpdate 1; OpStop]
                  (rotating uniform) (stage uniform) rotating_stage_inv)
           cube eq_refl 4%nat Hout).
Defined.

Lemma capture_restore_witness :
  wellFormed stretched cube
  /\ forall p ax,
       read (snd (stop
                    (fst (run [OpSetAnimation "dance"; OpUpdate 3; OpSetSpeed 2; OpUpdate 1]
                              (loaded stretched) (stage stretched)))
                    (snd (run [OpSetAnimation "dance"; OpUpdate 3; OpSetSpeed 2; OpUpdate 1]
                              (loaded stretched) (stage stretched)))))
            cube p ax
       = read stretched cube p ax.
Proof.
  split; [exact (cube_wellFormed 1 2 3)|].
  exact (@capture_restore R RNumber new_Animator stretched cube
           [OpSetAnimation "dance"; OpUpdate 3; OpSetSpeed 2; OpUpdate 1]
           (cube_wellFormed 1 2 3)).
Defined.

Lemma bounced_wellFormed : wellFormed (snd bounced) cube.
Proof. split; cbn; repeat constructor; cbn; lia. Qed.

Lemma setModel_keeps_playback_witness :
  wellFormed (snd bounced) cube
  /\ getCurrentAnimation (fst (setModel (fst bounced) (Some cube) (snd bounced)))
     = Str "bounce"
  /\ time (fst (setModel (fst bounced) (Some cube) (snd bounced))) = time (fst bounced)
  /\ fst (fst (update (fst (setModel (fst bounced) (Some cube) (snd bounced))) 1
                      (snd (setModel (fst bounced) (Some cube) (snd bounced)))))
     = Normal.
Proof.
  split; [exact bounced_wellFormed|].
  destruct (@setModel_keeps_playback R RNumber (fst bounced) (snd bounced) cube
              bounced_wellFormed) as ((Hc & Ht & _) & _ & Hnext).
  split; [rewrite Hc; reflexivity|]. split; [exact Ht|].
  destruct (Hnext "bounce"%string Bounce 1 eq_refl) as (init & _ & _ & E).
  - cbn; repeat (try (left; reflexivity); right).
  - reflexivity.
  - rewrite E. reflexivity.
Defined.

Lemma stopped_stays_at_rest_witness :
  inv (rotating uniform) (stage uniform)
  /\ model (rotating uniform) = Some cube
  /\ initialState (rotating uniform) = Some rest
  /\ forall p ax,
       read (snd (updates (snd (setAnimation (fst (stop (rotating uniform) (stage uniform)))
                                             "dance"))
                          [1; 1] (snd (stop (rotating uniform) (stage uniform)))))
            cube p ax
       = read (stage uniform) rest p ax.
Proof.
  split; [exact rotating_stage_inv|]. split; [reflexivity|]. split; [reflexivity|].
  destruct (@stopped_stays_at_rest R RNumber (rotating uniform) (stage uniform)
              cube rest "dance" [1; 1] rotating_stage_inv eq_refl eq_refl)
    as (E & _ & _ & Hrest).
  intros p ax. rewrite E. apply Hrest.
Defined.



Lemma speed_scaling_witness :
  (forall u v : R, (u * v)%num = (v * u)%num)
  /\ time (snd (fst (update (setSpeed (rotating uniform) 2) 3 (stage uniform))))
     = time (snd (fst (update (setSpeed (rotating uniform) 3) 2 (stage uniform)))).
Proof.
  split; [exact Rmult_comm|].
  exact (proj1 (proj2 (@speed_scaling R RNumber (rotating uniform) (stage uniform)
                         2 3 Rmult_comm))).
Defined.

Lemma time_accumulates_witness :
  inv (rotating uniform) (stage uniform)
  /\ completions (rotating uniform) [1; 2] (stage uniform) = [Normal; Normal]
  /\ time (fst (updates (rotating uniform) [1; 2] (stage uniform)))
     = ((lit 0 + 1 * lit 1.0) + 2 * lit 1.0)%num.
Proof.
  split; [exact rotating_stage_inv|].
  assert (Hin : In ("rotate"%string, Rotate) animation_table)
    by (left; reflexivity).
  destruct (@time_accumulates R RNumber [1; 2] (rotating uniform)
              (stage uniform) cube "rotate" Rotate rotating_stage_inv
              eq_refl eq_refl Hin eq_refl) as (Hc & Ht & _).
  split; [exact Hc | exact Ht].
Defined.

Lemma quiet_scale : read quiet rest Scale X = 1.
Proof. reflexivity. Qed.

Lemma scale_bounded_witness :
  NoDup (locs cube) /\ separate cube rest /\ 0 <= read quiet rest Scale X
  /\ 6 / 10 * read quiet rest Scale X
     <= read (animation Shrink cube rest 7 quiet) cube Scale Y
     <= 15 / 10 * read quiet rest Scale X.
Proof.
  assert (Hb : 0 <= read quiet rest Scale X) by (rewrite quiet_scale; lra).
  split; [exact cube_locs|]. split; [exact cube_rest_separate|]. split; [exact Hb|].
  exact (proj1 (@scale_bounded Shrink cube rest 7 quiet Y cube_locs
                  cube_rest_separate Hb eq_refl)).
Defined.

Lemma quiet_entropy : forall n, 0 <= entropy quiet n <= 1.
Proof. intros n. cbn. lra. Qed.

Lemma position_bounded_witness :
  NoDup (locs cube) /\ separate cube rest
  /\ (forall n, 0 <= entropy quiet n <= 1)
  /\ Rabs (read (animation Earthquake cube rest 7 quiet) cube Position Z
           - read quiet rest Position Z) <= 1
  /\ read quiet rest Position Y <= read (animation Jump cube rest 7 quiet) cube Position Y.
Proof.
  split; [exact cube_locs|]. split; [exact cube_rest_separate|].
  split; [exact quiet_entropy|]. split.
  - exact (proj1 (@position_bounded Earthquake cube rest 7 quiet Z cube_locs
                    cube_rest_separate (fun _ => quiet_entropy) eq_refl)).
  - apply (proj2 (@position_bounded Jump cube rest 7 quiet Y cube_locs
                    cube_rest_separate (fun _ => quiet_entropy) eq_refl)).
    cbn. tauto.
Defined.

Lemma format_by_suffix_witness :
  App.hasDot "GLB" = false
  /\ App.extension "scene.v2.GLB" = Some "glb"%string
  /\ App.format "scene.v2.GLB" = App.UseGLTFLoader
  /\ App.format "OBJ" = App.UseOBJLoader
  /\ App.format "model.glb.txt" = App.Unsupported "txt".
Proof.
  split; [reflexivity|].
  destruct (@format_by_suffix "scene.v2" "GLB" eq_refl) as (E & _ & F & G & _).
  split; [exact E|]. split; [|split; reflexivity].
  change (App.format ("scene.v2" ++ String "." "GLB") = App.UseGLTFLoader).
  rewrite F, G. reflexivity.
Defined.

End Instances.
